(** * gif-league: the room/session state machine of the game server

    A shallow embedding of the socket handlers of the game server and the
    properties of the room state machine, the vote tally and the
    reconnection paths.

    Two versions of the server are in the repository.  The session-aware
    one (the file with the [sessions] map, the handshake middleware and
    the reconnection block) is the one the client talks to: the client
    sends [auth: { sessionId }] and listens for the [session] event.  It is
    embedded at the top level of this file.  The session-less
    [server/index.js] differs in [join-room], [submit-topic], [submit-gif]
    and [submit-vote]; those handlers are embedded in [Module Sessionless].

    Conventions.
    - Connection handles ([socket.id]), session ids, room ids, names, topics
      and urls are strings.
    - [currentRound], [maxRounds], [points] and timestamps are JavaScript
      numbers that only ever hold small non-negative integers (they start
      at a literal and grow by [+= 1]); they are [nat] here.
    - Every handler runs to completion before the next one starts (one
      event loop), so a handler is a function from the server state to the
      new state and the list of messages it emits.
    - [Math.random] and [Date.now] are inputs of the actions that use them. *)

From Stdlib Require Import Ascii String NArith.
From stdpp Require Import gmap strings list fin_maps sorting.

Local Open Scope string_scope.
Local Open Scope list_scope.
Local Open Scope nat_scope.

(** ** Data model *)

(** [room.status] only ever holds one of six string literals. *)
Inductive Phase :=
| Lobby | TopicSelection | GifSelection | Voting | Reveal | GameOver.

#[global] Instance Phase_eq_dec : EqDecision Phase.
Proof. solve_decision. Defined.

(** [{ id, sessionId, name, points }] *)
Record Player := mkPlayer {
  player_id : string;
  player_sessionId : string;
  player_name : string;
  player_points : nat
}.

(** [{ playerId, gifUrl }] *)
Record Submission := mkSubmission {
  playerId : string;
  gifUrl : string
}.

(** [{ voterId, votedPlayerId }] *)
Record Vote := mkVote {
  voterId : string;
  votedPlayerId : string
}.

(** The room object.  [winnerOfLastRound] is [winners[0]] after a tally,
    which is [undefined] when the winner list is empty: [None]. *)
Record Room := mkRoom {
  room_id : string;
  hostId : string;
  players : list Player;
  status : Phase;
  currentRound : nat;
  maxRounds : nat;
  topic : string;
  submissions : list Submission;
  votes : list Vote;
  winnerOfLastRound : option string
}.

(** A value of the [sessions] map.  The connection handler stores
    [{ lastSeen }] alone, [create-room] and [join-room] store all four
    fields. *)
Record Session := mkSession {
  session_socketId : option string;
  session_roomId : option string;
  session_playerName : option string;
  session_lastSeen : nat
}.

(** The fields of a socket the handlers read: [socket.id], and
    [socket.sessionId], [socket.roomId] as the middleware leaves them. *)
Record Socket := mkSocket {
  socket_id : string;
  socket_sessionId : string;
  socket_roomId : option string
}.

(** The two global maps. *)
Record Server := mkServer {
  rooms : gmap string Room;
  sessions : gmap string Session
}.

#[global] Instance Player_eq_dec : EqDecision Player.
Proof. solve_decision. Defined.
#[global] Instance Submission_eq_dec : EqDecision Submission.
Proof. solve_decision. Defined.
#[global] Instance Vote_eq_dec : EqDecision Vote.
Proof. solve_decision. Defined.

(** *** Field updates (assignments to one field of an object) *)

Definition set_player_id (h : string) (p : Player) : Player :=
  mkPlayer h (player_sessionId p) (player_name p) (player_points p).

Definition add_points (n : nat) (p : Player) : Player :=
  mkPlayer (player_id p) (player_sessionId p) (player_name p) (player_points p + n).

Definition set_gifUrl (u : string) (s : Submission) : Submission :=
  mkSubmission (playerId s) u.

Definition set_votedPlayerId (w : string) (v : Vote) : Vote :=
  mkVote (voterId v) w.

Definition set_players (ps : list Player) (r : Room) : Room :=
  mkRoom (room_id r) (hostId r) ps (status r) (currentRound r) (maxRounds r)
         (topic r) (submissions r) (votes r) (winnerOfLastRound r).

Definition set_status (s : Phase) (r : Room) : Room :=
  mkRoom (room_id r) (hostId r) (players r) s (currentRound r) (maxRounds r)
         (topic r) (submissions r) (votes r) (winnerOfLastRound r).

Definition set_currentRound (n : nat) (r : Room) : Room :=
  mkRoom (room_id r) (hostId r) (players r) (status r) n (maxRounds r)
         (topic r) (submissions r) (votes r) (winnerOfLastRound r).

Definition set_topic (t : string) (r : Room) : Room :=
  mkRoom (room_id r) (hostId r) (players r) (status r) (currentRound r) (maxRounds r)
         t (submissions r) (votes r) (winnerOfLastRound r).

Definition set_submissions (ss : list Submission) (r : Room) : Room :=
  mkRoom (room_id r) (hostId r) (players r) (status r) (currentRound r) (maxRounds r)
         (topic r) ss (votes r) (winnerOfLastRound r).

Definition set_votes (vs : list Vote) (r : Room) : Room :=
  mkRoom (room_id r) (hostId r) (players r) (status r) (currentRound r) (maxRounds r)
         (topic r) (submissions r) vs (winnerOfLastRound r).

Definition set_winnerOfLastRound (w : option string) (r : Room) : Room :=
  mkRoom (room_id r) (hostId r) (players r) (status r) (currentRound r) (maxRounds r)
         (topic r) (submissions r) (votes r) w.

Definition set_rooms (m : gmap string Room) (st : Server) : Server :=
  mkServer m (sessions st).

Definition set_sessions (m : gmap string Session) (st : Server) : Server :=
  mkServer (rooms st) m.

(** ** The vote tally

    [voteCounts] is an object literal [{}] used as a map from
    [votedPlayerId] to a count.  Three facts of the language shape what the
    handler computes, and the embedding keeps them:
    - reading [voteCounts[k]] of a name that is not an own property falls
      through to [Object.prototype]: for its property names the read yields a
      function (an object for [__proto__]), which is truthy, so
      [(voteCounts[k] || 0) + 1] is a string, not a number;
    - assigning to [__proto__] calls the inherited setter, which ignores a
      string: no own property appears;
    - [Object.entries] lists own properties whose name is an array index
      first, by ascending index, and the others after them in the order they
      were created. *)

(** A value stored in [voteCounts]: a number, or the text that results from
    adding [1] to an inherited function. *)
Inductive CountVal :=
| CNum (n : nat)
| CText.

#[global] Instance CountVal_eq_dec : EqDecision CountVal.
Proof. solve_decision. Defined.

(** The property names of [Object.prototype]. *)
Definition object_prototype_keys : list string :=
  [ "constructor"; "__defineGetter__"; "__defineSetter__"; "hasOwnProperty";
    "__lookupGetter__"; "__lookupSetter__"; "isPrototypeOf";
    "propertyIsEnumerable"; "toString"; "valueOf"; "__proto__";
    "toLocaleString" ].

(** The own properties of [voteCounts], in creation order. *)
Abbreviation VoteCounts := (list (string * CountVal)).

(** [voteCounts[v.votedPlayerId] = (voteCounts[v.votedPlayerId] || 0) + 1] *)
Definition count_vote (voteCounts : VoteCounts) (v : Vote) : VoteCounts :=
  let k := votedPlayerId v in
  match list_find (λ e, e.1 = k) voteCounts with
  | Some (i, (_, CNum n)) => <[i := (k, CNum (n + 1))]> voteCounts
  | Some (i, (_, CText)) => voteCounts
  | None =>
      if decide (k ∈ object_prototype_keys) then
        if decide (k = "__proto__") then voteCounts
        else voteCounts ++ [(k, CText)]
      else voteCounts ++ [(k, CNum 1)]
  end.

(** [room.votes.forEach(v => ...)] starting from [{}]. *)
Definition tally (vs : list Vote) : VoteCounts :=
  foldl count_vote [] vs.

Definition digit_of (a : ascii) : option N :=
  let n := N_of_ascii a in
  if ((48 <=? n) && (n <=? 57))%N then Some (n - 48)%N else None.

Fixpoint decimal_value (acc : N) (s : string) : option N :=
  match s with
  | EmptyString => Some acc
  | String a s' =>
      match digit_of a with
      | Some d => decimal_value (10 * acc + d)%N s'
      | None => None
      end
  end.

(** A property name is an array index when it is the canonical decimal
    spelling of an integer below [2^32 - 1]. *)
Definition array_index (k : string) : option N :=
  match k with
  | EmptyString => None
  | String "0"%char EmptyString => Some 0%N
  | String "0"%char _ => None
  | _ =>
      match decimal_value 0 k with
      | Some n => if (n <? 2 ^ 32 - 1)%N then Some n else None
      | None => None
      end
  end.

Definition index_le (a b : N * (string * CountVal)) : Prop := (a.1 ≤ b.1)%N.

#[global] Instance index_le_dec a b : Decision (index_le a b).
Proof. unfold index_le. apply _. Defined.

(** [Object.entries(voteCounts)] *)
Definition entries (o : VoteCounts) : VoteCounts :=
  (snd <$> merge_sort index_le (omap (λ e, (λ n, (n, e)) <$> array_index e.1) o))
  ++ filter (λ e, array_index e.1 = None) o.

(** One round of the [forEach] over the entries; the accumulator is
    [(maxVotes, winners)].  A text compared with a number is [NaN]: neither
    [count > maxVotes] nor [count === maxVotes] holds. *)
Definition pick_winner (acc : nat * list string) (e : string * CountVal)
  : nat * list string :=
  match e.2 with
  | CNum count =>
      if decide (acc.1 < count) then (count, [e.1])
      else if decide (count = acc.1) then (acc.1, acc.2 ++ [e.1])
      else acc
  | CText => acc
  end.

Definition find_winners (o : VoteCounts) : nat * list string :=
  foldl pick_winner (0, []) (entries o).

(** [const p = room.players.find(p => p.id === winnerId); if (p) p.points += 1] *)
Definition award_point (ps : list Player) (winnerId : string) : list Player :=
  match list_find (λ p, player_id p = winnerId) ps with
  | Some (i, p) => <[i := add_points 1 p]> ps
  | None => ps
  end.

Definition award (ps : list Player) (winners : list string) : list Player :=
  foldl award_point ps winners.

(** *** Messages *)

(** What a handler hands to [emit]. *)
Inductive Payload :=
| PSession (sessionId : string)
| PError (message : string)
| PRoom (room : Room)
| PCount (playerCount count : nat)
| PRoundEnded (room : Room) (winners : list string) (voteCounts : VoteCounts).

(** [socket.emit(ev, payload)] and [io.to(roomId).emit(ev, payload)]. *)
Inductive Emit :=
| ToSocket (ev : string) (payload : Payload)
| ToRoom (roomId : string) (ev : string) (payload : Payload).

(** JavaScript truthiness of a string that may be [undefined]. *)
Definition truthy (o : option string) : bool :=
  match o with
  | Some s => negb (String.eqb s "")
  | None => false
  end.

(** ** The handlers

    Each handler looks its room up with [rooms.get(roomId)] and mutates the
    room object in place; [on_room] is that lookup and write-back.  The
    function given to it is the body of the handler under [if (room ...)]. *)

Definition on_room (roomId : string) (body : Room → Room * list Emit)
    (st : Server) : Server * list Emit :=
  match rooms st !! roomId with
  | Some room =>
      let '(room', out) := body room in
      (set_rooms (<[roomId := room']> (rooms st)) st, out)
  | None => (st, [])
  end.

(** The [io.use] middleware: which session and room the new socket carries. *)
Definition handshake (socketId : string) (auth : option string) (fresh : string)
    (st : Server) : Socket :=
  match auth with
  | Some sessionId =>
      if truthy auth then
        match sessions st !! sessionId with
        | Some session => mkSocket socketId sessionId (session_roomId session)
        | None => mkSocket socketId fresh None
        end
      else mkSocket socketId fresh None
  | None => mkSocket socketId fresh None
  end.

(** [player.id = socket.id] on the first player with the socket's session. *)
Definition rebind (socket : Socket) (room : Room) : option Room :=
  match list_find (λ p, player_sessionId p = socket_sessionId socket) (players room) with
  | Some (i, player) =>
      Some (set_players (<[i := set_player_id (socket_id socket) player]> (players room)) room)
  | None => None
  end.

(** The body of [io.on('connection')] before the handlers are registered. *)
Definition connection (socket : Socket) (now : nat) (st : Server)
  : Server * list Emit :=
  let sid := socket_sessionId socket in
  let hello := ToSocket "session" (PSession sid) in
  let sessions' :=
    match sessions st !! sid with
    | Some session =>
        <[sid := mkSession (session_socketId session) (session_roomId session)
                           (session_playerName session) now]> (sessions st)
    | None => <[sid := mkSession None None None now]> (sessions st)
    end in
  let st1 := set_sessions sessions' st in
  match socket_roomId socket with
  | Some roomId =>
      if truthy (socket_roomId socket) then
        match rooms st !! roomId with
        | Some room =>
            match rebind socket room with
            | Some room' =>
                (set_rooms (<[roomId := room']> (rooms st)) st1,
                 [hello; ToSocket "player-joined" (PRoom room');
                  ToRoom roomId "player-joined" (PRoom room')])
            | None => (st1, [hello])
            end
        | None => (st1, [hello])
        end
      else (st1, [hello])
  | None => (st1, [hello])
  end.

(** The object literal [create-room] builds. *)
Definition new_room (socket : Socket) (playerName roomId : string) : Room :=
  mkRoom roomId (socket_id socket)
    [mkPlayer (socket_id socket) (socket_sessionId socket) playerName 0]
    Lobby 0 10 "" [] [] (Some (socket_id socket)).

(** [socket.on('create-room')]; [roomId] is what [generateRoomId()] returned. *)
Definition create_room (socket : Socket) (playerName roomId : string) (now : nat)
    (st : Server) : Server * list Emit :=
  let room := new_room socket playerName roomId in
  (mkServer (<[roomId := room]> (rooms st))
     (<[socket_sessionId socket :=
          mkSession (Some (socket_id socket)) (Some roomId) (Some playerName) now]>
        (sessions st)),
   [ToSocket "room-created" (PRoom room)]).

(** [socket.on('join-room')] *)
Definition join_room (socket : Socket) (roomId playerName : string) (now : nat)
    (st : Server) : Server * list Emit :=
  match rooms st !! roomId with
  | Some room =>
      match rebind socket room with
      | Some room' =>
          (set_rooms (<[roomId := room']> (rooms st)) st,
           [ToRoom roomId "player-joined" (PRoom room')])
      | None =>
          if decide (status room ≠ Lobby) then
            (st, [ToSocket "error" (PError "Game already started")])
          else
            let player :=
              mkPlayer (socket_id socket) (socket_sessionId socket) playerName 0 in
            let room' := set_players (players room ++ [player]) room in
            (mkServer (<[roomId := room']> (rooms st))
               (<[socket_sessionId socket :=
                    mkSession (Some (socket_id socket)) (Some roomId)
                              (Some playerName) now]> (sessions st)),
             [ToRoom roomId "player-joined" (PRoom room')])
      end
  | None => (st, [ToSocket "error" (PError "Room not found")])
  end.

(** [socket.on('start-game')] *)
Definition start_game_room (socketId roomId : string) (room : Room)
  : Room * list Emit :=
  if decide (hostId room = socketId) then
    let room' := set_currentRound 1 (set_status TopicSelection room) in
    (room', [ToRoom roomId "game-started" (PRoom room')])
  else (room, []).

Definition start_game (socket : Socket) (roomId : string) :=
  on_room roomId (start_game_room (socket_id socket) roomId).

(** The guard of [submit-topic]:
    [room.winnerOfLastRound === socket.id ||
     room.hostId === socket.id && !room.winnerOfLastRound] *)
Definition may_submit_topic (socketId : string) (room : Room) : bool :=
  bool_decide (winnerOfLastRound room = Some socketId)
  || (bool_decide (hostId room = socketId) && negb (truthy (winnerOfLastRound room))).

(** [socket.on('submit-topic')] *)
Definition submit_topic_room (socketId roomId topic : string) (room : Room)
  : Room * list Emit :=
  if may_submit_topic socketId room then
    let room' := set_submissions [] (set_status GifSelection (set_topic topic room)) in
    (room', [ToRoom roomId "topic-submitted" (PRoom room')])
  else (room, []).

Definition submit_topic (socket : Socket) (roomId topic : string) :=
  on_room roomId (submit_topic_room (socket_id socket) roomId topic).

(** The upsert of [submit-gif]: [findIndex], then assign or [push]. *)
Definition upsert_submission (socketId gifUrl : string) (ss : list Submission)
  : list Submission :=
  match list_find (λ s, playerId s = socketId) ss with
  | Some (i, s) => <[i := set_gifUrl gifUrl s]> ss
  | None => ss ++ [mkSubmission socketId gifUrl]
  end.

(** [socket.on('submit-gif')] *)
Definition submit_gif_room (socketId roomId gifUrl : string) (room : Room)
  : Room * list Emit :=
  if decide (status room = GifSelection) then
    let room1 := set_submissions (upsert_submission socketId gifUrl (submissions room)) room in
    if decide (length (submissions room1) = length (players room1)) then
      let room2 := set_votes [] (set_status Voting room1) in
      (room2, [ToRoom roomId "all-gifs-submitted" (PRoom room2)])
    else
      (room1, [ToRoom roomId "gif-submitted"
                 (PCount (length (players room1)) (length (submissions room1)))])
  else (room, []).

Definition submit_gif (socket : Socket) (roomId gifUrl : string) :=
  on_room roomId (submit_gif_room (socket_id socket) roomId gifUrl).

(** The upsert of [submit-vote]. *)
Definition upsert_vote (socketId votedPlayerId : string) (vs : list Vote)
  : list Vote :=
  match list_find (λ v, voterId v = socketId) vs with
  | Some (i, v) => <[i := set_votedPlayerId votedPlayerId v]> vs
  | None => vs ++ [mkVote socketId votedPlayerId]
  end.

(** The block under [if (room.votes.length === room.players.length)]:
    tally, award, [winnerOfLastRound], [reveal] or [game-over]. *)
Definition close_voting (roomId : string) (room : Room) : Room * list Emit :=
  let voteCounts := tally (votes room) in
  let winners := (find_winners voteCounts).2 in
  let room1 := set_players (award (players room) winners) room in
  let room2 := set_winnerOfLastRound (head winners) room1 in
  let room3 := set_status Reveal room2 in
  let room4 :=
    if decide (maxRounds room3 ≤ currentRound room3)
    then set_status GameOver room3 else room3 in
  (room4, [ToRoom roomId "round-ended" (PRoundEnded room4 winners voteCounts)]).

(** [socket.on('submit-vote')] *)
Definition submit_vote_room (socketId roomId votedPlayerId : string) (room : Room)
  : Room * list Emit :=
  if decide (status room = Voting) then
    if decide (votedPlayerId = socketId) then (room, [])
    else
      let room1 := set_votes (upsert_vote socketId votedPlayerId (votes room)) room in
      if decide (length (votes room1) = length (players room1)) then
        close_voting roomId room1
      else
        (room1, [ToRoom roomId "vote-submitted"
                   (PCount (length (players room1)) (length (votes room1)))])
  else (room, []).

Definition submit_vote (socket : Socket) (roomId votedPlayerId : string) :=
  on_room roomId (submit_vote_room (socket_id socket) roomId votedPlayerId).

(** [socket.on('next-round')] *)
Definition next_round_room (roomId : string) (room : Room) : Room * list Emit :=
  if decide (status room = Reveal) then
    let room' :=
      set_votes [] (set_submissions []
        (set_status TopicSelection (set_currentRound (currentRound room + 1) room))) in
    (room', [ToRoom roomId "new-round" (PRoom room')])
  else (room, []).

Definition next_round (socket : Socket) (roomId : string) :=
  on_room roomId (next_round_room roomId).

(** [SESSION_EXPIRY = 5 * 60 * 1000] and the [setInterval] sweep. *)
Definition SESSION_EXPIRY : nat := 5 * 60 * 1000.

Definition sweep (now : nat) (st : Server) : Server * list Emit :=
  (set_sessions
     (filter (λ kv, ¬ (SESSION_EXPIRY < now - session_lastSeen kv.2)) (sessions st)) st,
   []).

(** ** The server as a transition system

    An action is one event the server reacts to.  The socket an action names
    is any socket: the invariants below hold whoever sends what. *)

Inductive Action :=
| Connect (socketId : string) (auth : option string) (fresh : string) (now : nat)
| CreateRoom (socket : Socket) (playerName roomId : string) (now : nat)
| JoinRoom (socket : Socket) (roomId playerName : string) (now : nat)
| StartGame (socket : Socket) (roomId : string)
| SubmitTopic (socket : Socket) (roomId topic : string)
| SubmitGif (socket : Socket) (roomId gifUrl : string)
| SubmitVote (socket : Socket) (roomId votedPlayerId : string)
| NextRound (socket : Socket) (roomId : string)
| Disconnect (socket : Socket)
| Sweep (now : nat).

Definition step (a : Action) (st : Server) : Server * list Emit :=
  match a with
  | Connect socketId auth fresh now =>
      connection (handshake socketId auth fresh st) now st
  | CreateRoom socket playerName roomId now =>
      create_room socket playerName roomId now st
  | JoinRoom socket roomId playerName now =>
      join_room socket roomId playerName now st
  | StartGame socket roomId => start_game socket roomId st
  | SubmitTopic socket roomId topic => submit_topic socket roomId topic st
  | SubmitGif socket roomId gifUrl => submit_gif socket roomId gifUrl st
  | SubmitVote socket roomId votedPlayerId =>
      submit_vote socket roomId votedPlayerId st
  | NextRound socket roomId => next_round socket roomId st
  | Disconnect _ => (st, [])
  | Sweep now => sweep now st
  end.

Definition run (trace : list Action) (st : Server) : Server :=
  foldl (λ s a, (step a s).1) st trace.

(** [const rooms = new Map(); const sessions = new Map();] *)
Definition initial : Server := mkServer ∅ ∅.

Definition reachable (st : Server) : Prop :=
  ∃ trace, st = run trace initial.

(** ** The session-less server

    The handlers of [server/index.js] that differ from the ones above.  Its
    players have no [sessionId] field (it is never read there): the field
    holds the empty string.  [start-game] and [next-round] are the same text
    in both files. *)

Module Sessionless.

(** [socket.on('join-room')]: no reconnection branch. *)
Definition join_room_room (socketId roomId playerName : string) (room : Room)
  : Room * list Emit :=
  if decide (status room ≠ Lobby) then
    (room, [ToSocket "error" (PError "Game already started")])
  else
    let room' := set_players (players room ++ [mkPlayer socketId "" playerName 0]) room in
    (room', [ToRoom roomId "player-joined" (PRoom room')]).

(** [socket.on('submit-topic')]: the winner of the last round alone. *)
Definition submit_topic_room (socketId roomId topic : string) (room : Room)
  : Room * list Emit :=
  if decide (winnerOfLastRound room = Some socketId) then
    let room' := set_submissions [] (set_status GifSelection (set_topic topic room)) in
    (room', [ToRoom roomId "topic-submitted" (PRoom room')])
  else (room, []).

(** [socket.on('submit-gif')]: always [push]. *)
Definition submit_gif_room (socketId roomId gifUrl : string) (room : Room)
  : Room * list Emit :=
  if decide (status room = GifSelection) then
    let room1 := set_submissions (submissions room ++ [mkSubmission socketId gifUrl]) room in
    if decide (length (submissions room1) = length (players room1)) then
      let room2 := set_votes [] (set_status Voting room1) in
      (room2, [ToRoom roomId "all-gifs-submitted" (PRoom room2)])
    else
      (room1, [ToRoom roomId "gif-submitted"
                 (PCount (length (players room1)) (length (submissions room1)))])
  else (room, []).

(** [socket.on('submit-vote')]: always [push], no self-vote test. *)
Definition submit_vote_room (socketId roomId votedPlayerId : string) (room : Room)
  : Room * list Emit :=
  if decide (status room = Voting) then
    let room1 := set_votes (votes room ++ [mkVote socketId votedPlayerId]) room in
    if decide (length (votes room1) = length (players room1)) then
      close_voting roomId room1
    else
      (room1, [ToRoom roomId "vote-submitted"
                 (PCount (length (players room1)) (length (votes room1)))])
  else (room, []).

End Sessionless.

(** ** Notions used in the statements *)

(** How many of the votes name [k]. *)
Definition votes_for (k : string) (vs : list Vote) : nat :=
  length (filter (λ v, votedPlayerId v = k) vs).

(** No vote names a property of [Object.prototype]. *)
Definition plain_votes (vs : list Vote) : Prop :=
  Forall (λ v, votedPlayerId v ∉ object_prototype_keys) vs.

#[global] Instance plain_votes_dec vs : Decision (plain_votes vs).
Proof. unfold plain_votes. apply _. Defined.


(** [i] is the position [players.find(p => p.id === h)] stops at. *)
Definition found_at (ps : list Player) (h : string) (i : nat) : Prop :=
  fst <$> list_find (λ p, player_id p = h) ps = Some i.

#[global] Instance found_at_dec ps h i : Decision (found_at ps h i).
Proof. unfold found_at. apply _. Defined.


(** The tally after a prefix of the votes: distinct keys, each holding the
    number of votes cast for it so far. *)
Definition tally_inv (o : VoteCounts) (vs : list Vote) : Prop :=
  NoDup o.*1
  ∧ (∀ k c, (k, c) ∈ o → c = CNum (votes_for k vs) ∧ 0 < votes_for k vs)
  ∧ (∀ k, 0 < votes_for k vs → k ∈ o.*1).

(** Who passes the guard of [submit-topic]: the handle stored in
    [winnerOfLastRound], or the host while [winnerOfLastRound] is
    [undefined] or empty. *)
Definition is_judge (socketId : string) (room : Room) : Prop :=
  winnerOfLastRound room = Some socketId
  ∨ (hostId room = socketId
     ∧ (winnerOfLastRound room = None ∨ winnerOfLastRound room = Some "")).

(** What a handler can do to one room. *)
Inductive room_step : Room → Room → Prop :=
| rs_rebind socket room room' :
    rebind socket room = Some room' → room_step room room'
| rs_join socket playerName room :
    status room = Lobby →
    room_step room
      (set_players
         (players room
          ++ [mkPlayer (socket_id socket) (socket_sessionId socket) playerName 0])
         room)
| rs_start_game socketId roomId room :
    room_step room (start_game_room socketId roomId room).1
| rs_submit_topic socketId roomId topic' room :
    room_step room (submit_topic_room socketId roomId topic' room).1
| rs_submit_gif socketId roomId url room :
    room_step room (submit_gif_room socketId roomId url room).1
| rs_submit_vote socketId roomId votedId room :
    room_step room (submit_vote_room socketId roomId votedId room).1
| rs_next_round roomId room :
    room_step room (next_round_room roomId room).1.

(** Every room has a player; there are never more submissions than
    players, and fewer while the room is in [gif-selection]; no stored vote
    is a vote for oneself. *)
Definition room_ok (room : Room) : Prop :=
  0 < length (players room)
  ∧ length (submissions room) ≤ length (players room)
  ∧ (status room = GifSelection → length (submissions room) < length (players room))
  ∧ Forall (λ v, voterId v ≠ votedPlayerId v) (votes room).

Definition server_ok (st : Server) : Prop :=
  ∀ roomId room, rooms st !! roomId = Some room → room_ok room.

(** ** Rooms and traces used as examples *)

(** A room of two players in the voting phase in which [A] has voted for a
    handle that is no player's. *)
Definition ghost_room : Room :=
  mkRoom "123456" "A"
    [mkPlayer "A" "sA" "alice" 0; mkPlayer "B" "sB" "bob" 0]
    Voting 1 10 "X"
    [mkSubmission "A" "u1"; mkSubmission "B" "u2"]
    [mkVote "A" "ghost"]
    (Some "A").

(** The actions that lead to [ghost_room]. *)
Definition ghost_trace : list Action :=
  let A := mkSocket "A" "sA" None in
  let B := mkSocket "B" "sB" None in
  [ Connect "A" None "sA" 0; Connect "B" None "sB" 0;
    CreateRoom A "alice" "123456" 0; JoinRoom B "123456" "bob" 1;
    StartGame A "123456"; SubmitTopic A "123456" "X";
    SubmitGif A "123456" "u1"; SubmitGif B "123456" "u2";
    SubmitVote A "123456" "ghost" ].

(** The scenario of the specification: [A] (host), [B] and [C]; [A] and [C]
    have voted for [B], the vote of [B] is still missing. *)
Definition scenario_room : Room :=
  mkRoom "123456" "A"
    [mkPlayer "A" "sA" "alice" 0; mkPlayer "B" "sB" "bob" 0;
     mkPlayer "C" "sC" "carol" 0]
    Voting 1 10 "X"
    [mkSubmission "A" "u1"; mkSubmission "B" "u2"; mkSubmission "C" "u3"]
    [mkVote "A" "B"; mkVote "C" "B"]
    (Some "A").

(** The two-player room of the specification's last-round scenario: round
    10 of 10, one vote missing. *)
Definition last_round_room : Room :=
  mkRoom "123456" "A"
    [mkPlayer "A" "sA" "alice" 3; mkPlayer "B" "sB" "bob" 4]
    Voting 10 10 "X"
    [mkSubmission "A" "u1"; mkSubmission "B" "u2"]
    [mkVote "A" "B"]
    (Some "B").

(** The room right after [create-room]: its creator alone, in the lobby. *)
Definition solo_room : Room :=
  mkRoom "123456" "A" [mkPlayer "A" "sA" "alice" 0] Lobby 0 10 "" [] [] (Some "A").

(** The actions that lead to [solo_room]; a second socket [Z] is connected
    and in no room. *)
Definition solo_trace : list Action :=
  [ Connect "A" None "sA" 0; Connect "Z" None "sZ" 0;
    CreateRoom (mkSocket "A" "sA" None) "alice" "123456" 0 ].

(** The room of the specification's scenario after the tally: [B] has won
    round 1 and the room shows the result. *)
Definition reveal_room : Room :=
  mkRoom "123456" "A"
    [mkPlayer "A" "sA" "alice" 0; mkPlayer "B" "sB" "bob" 1;
     mkPlayer "C" "sC" "carol" 0]
    Reveal 1 10 "X"
    [mkSubmission "A" "u1"; mkSubmission "B" "u2"; mkSubmission "C" "u3"]
    [mkVote "A" "B"; mkVote "C" "B"; mkVote "B" "A"]
    (Some "B").

(** The actions of the specification's scenario; a fourth socket [Z] is
    connected and in no room. *)
Definition scenario_trace : list Action :=
  let A := mkSocket "A" "sA" None in
  let B := mkSocket "B" "sB" None in
  let C := mkSocket "C" "sC" None in
  [ Connect "A" None "sA" 0; Connect "B" None "sB" 0; Connect "C" None "sC" 0;
    Connect "Z" None "sZ" 0;
    CreateRoom A "alice" "123456" 0; JoinRoom B "123456" "bob" 1;
    JoinRoom C "123456" "carol" 2; StartGame A "123456";
    SubmitTopic A "123456" "X";
    SubmitGif A "123456" "u1"; SubmitGif B "123456" "u2"; SubmitGif C "123456" "u3";
    SubmitVote A "123456" "B"; SubmitVote C "123456" "B"; SubmitVote B "123456" "A" ].

(** The actions before the outsider's submission: [A], [B] and [Z] are
    connected, [A] and [B] are in the room, [A] has set the topic and
    submitted a gif, [B] has not. *)
Definition outsider_trace : list Action :=
  let A := mkSocket "A" "sA" None in
  let B := mkSocket "B" "sB" None in
  [ Connect "A" None "sA" 0; Connect "B" None "sB" 0; Connect "Z" None "sZ" 0;
    CreateRoom A "alice" "123456" 0; JoinRoom B "123456" "bob" 1;
    StartGame A "123456"; SubmitTopic A "123456" "X";
    SubmitGif A "123456" "u1" ].

(** ** The session-less server as a transition system

    [server/index.js] keeps the [rooms] map alone.  [create-room],
    [start-game] and [next-round] are the handlers of the session-aware
    server without the session bookkeeping; the other handlers are those
    of [Module Sessionless]. *)

Module SessionlessServer.

(** The object literal [create-room] builds: the player has no
    [sessionId]. *)
Definition new_room (socketId playerName roomId : string) : Room :=
  mkRoom roomId socketId [mkPlayer socketId "" playerName 0]
    Lobby 0 10 "" [] [] (Some socketId).

Inductive Action :=
| CreateRoom (socketId playerName roomId : string)
| JoinRoom (socketId roomId playerName : string)
| StartGame (socketId roomId : string)
| SubmitTopic (socketId roomId topic : string)
| SubmitGif (socketId roomId gifUrl : string)
| SubmitVote (socketId roomId votedPlayerId : string)
| NextRound (socketId roomId : string)
| Disconnect (socketId : string).

(** [const room = rooms.get(roomId); if (room ...) { ... }] *)
Definition on_room (roomId : string) (body : Room → Room * list Emit)
    (m : gmap string Room) : gmap string Room * list Emit :=
  match m !! roomId with
  | Some room => (<[roomId := (body room).1]> m, (body room).2)
  | None => (m, [])
  end.

Definition step (a : Action) (m : gmap string Room)
  : gmap string Room * list Emit :=
  match a with
  | CreateRoom socketId playerName roomId =>
      let room := new_room socketId playerName roomId in
      (<[roomId := room]> m, [ToSocket "room-created" (PRoom room)])
  | JoinRoom socketId roomId playerName =>
      match m !! roomId with
      | Some room =>
          let r := Sessionless.join_room_room socketId roomId playerName room in
          (<[roomId := r.1]> m, r.2)
      | None => (m, [ToSocket "error" (PError "Room not found")])
      end
  | StartGame socketId roomId =>
      on_room roomId (start_game_room socketId roomId) m
  | SubmitTopic socketId roomId topic =>
      on_room roomId (Sessionless.submit_topic_room socketId roomId topic) m
  | SubmitGif socketId roomId gifUrl =>
      on_room roomId (Sessionless.submit_gif_room socketId roomId gifUrl) m
  | SubmitVote socketId roomId votedPlayerId =>
      on_room roomId (Sessionless.submit_vote_room socketId roomId votedPlayerId) m
  | NextRound socketId roomId => on_room roomId (next_round_room roomId) m
  | Disconnect _ => (m, [])
  end.

Definition run (trace : list Action) (m : gmap string Room) : gmap string Room :=
  foldl (λ s a, (step a s).1) m trace.

Definition reachable (m : gmap string Room) : Prop :=
  ∃ trace, m = run trace ∅.

(** Every room has a player; neither the submissions nor the votes
    outnumber the players, and each list is shorter than the player list
    while its phase is open. *)
Definition room_bounded (room : Room) : Prop :=
  0 < length (players room)
  ∧ length (submissions room) ≤ length (players room)
  ∧ (status room = GifSelection → length (submissions room) < length (players room))
  ∧ length (votes room) ≤ length (players room)
  ∧ (status room = Voting → length (votes room) < length (players room)).

End SessionlessServer.

(** ** Further notions used in the statements *)

(** What identifies a seat for good: the session and the name.  The
    handle and the points of a seat change, these never do. *)
Definition seat (p : Player) : string * string :=
  (player_sessionId p, player_name p).

Definition seats (room : Room) : list (string * string) :=
  seat <$> players room.

(** What a handler can do to one room, with the guard of the join kept:
    a new seat is appended only for a session that has none. *)
Inductive room_move : Room → Room → Prop :=
| rm_rebind socket room room' :
    rebind socket room = Some room' → room_move room room'
| rm_join socket playerName room :
    rebind socket room = None → status room = Lobby →
    room_move room
      (set_players
         (players room
          ++ [mkPlayer (socket_id socket) (socket_sessionId socket) playerName 0])
         room)
| rm_start_game socketId roomId room :
    room_move room (start_game_room socketId roomId room).1
| rm_submit_topic socketId roomId topic' room :
    room_move room (submit_topic_room socketId roomId topic' room).1
| rm_submit_gif socketId roomId url room :
    room_move room (submit_gif_room socketId roomId url room).1
| rm_submit_vote socketId roomId votedId room :
    room_move room (submit_vote_room socketId roomId votedId room).1
| rm_next_round roomId room :
    room_move room (next_round_room roomId room).1.

(** The shape of a room stored under [key]. *)
Definition room_wf (key : string) (room : Room) : Prop :=
  room_id room = key
  ∧ maxRounds room = 10
  ∧ currentRound room ≤ maxRounds room
  ∧ (status room = Reveal → currentRound room < maxRounds room)
  ∧ (status room = GameOver → currentRound room = maxRounds room)
  ∧ NoDup (player_sessionId <$> players room)
  ∧ NoDup (playerId <$> submissions room)
  ∧ NoDup (voterId <$> votes room)
  ∧ length (votes room) ≤ length (players room)
  ∧ (status room = Voting → length (votes room) < length (players room))
  ∧ (status room = Lobby →
     submissions room = [] ∧ votes room = [] ∧ currentRound room = 0
     ∧ Forall (λ p, player_points p = 0) (players room)
     ∧ winnerOfLastRound room = Some (hostId room)).

Definition server_wf (st : Server) : Prop :=
  (∀ roomId room, rooms st !! roomId = Some room → room_wf roomId room)
  ∧ (∀ sid session roomId,
       sessions st !! sid = Some session → session_roomId session = Some roomId →
       is_Some (rooms st !! roomId)).



(** No voted handle is spelled like an array index. *)
Definition no_index_votes (vs : list Vote) : Prop :=
  Forall (λ v, array_index (votedPlayerId v) = None) vs.

#[global] Instance no_index_votes_dec vs : Decision (no_index_votes vs).
Proof. unfold no_index_votes. apply _. Defined.


(** A page reload in the middle of [gif-selection]: [B] has submitted a
    gif, then its client connects again on a new socket [B2] with the same
    session id, and the connection handler rebinds the seat of [B] to
    [B2]. *)
Definition reload_trace : list Action :=
  let A := mkSocket "A" "sA" None in
  let B := mkSocket "B" "sB" None in
  [ Connect "A" None "sA" 0; Connect "B" None "sB" 0;
    CreateRoom A "alice" "123456" 0; JoinRoom B "123456" "bob" 1;
    StartGame A "123456"; SubmitTopic A "123456" "X";
    SubmitGif B "123456" "u2";
    Connect "B2" (Some "sB") "sB2" 2 ].

(** The room after [reload_trace]: the seat of session [sB] carries the
    handle [B2], the submission of that player still carries [B]. *)
Definition reload_room : Room :=
  mkRoom "123456" "A"
    [mkPlayer "A" "sA" "alice" 0; mkPlayer "B2" "sB" "bob" 0]
    GifSelection 1 10 "X"
    [mkSubmission "B" "u2"]
    []
    (Some "A").

(** * Properties *)

(** ** The tally object *)

Section Tally.

Implicit Types (o : VoteCounts) (vs : list Vote) (k : string).

Lemma votes_for_snoc k vs v :
  votes_for k (vs ++ [v]) =
  votes_for k vs + (if decide (votedPlayerId v = k) then 1 else 0).
Proof.
  unfold votes_for. rewrite filter_app, length_app. f_equal.
  rewrite filter_cons, filter_nil. by case_decide.
Qed.

Lemma elem_of_insert_inv {A} (l : list A) i x y :
  y ∈ <[i:=x]> l → y = x ∨ ∃ j, j ≠ i ∧ l !! j = Some y.
Proof.
  intros [j Hj]%list_elem_of_lookup.
  apply list_lookup_insert_Some in Hj as [(-> & -> & _)|[? Hj]]; [by left|].
  right. exists j. by split.
Qed.

Lemma count_vote_inv o vs v :
  votedPlayerId v ∉ object_prototype_keys →
  tally_inv o vs → tally_inv (count_vote o v) (vs ++ [v]).
Proof.
  intros Hplain (Hnd & Hval & Hdom). unfold count_vote.
  destruct (list_find _ o) as [[i [k' c]]|] eqn:Hfind.
  - apply list_find_Some in Hfind as (Hi & Hk & _). simpl in Hk. subst k'.
    destruct (Hval _ _ (list_elem_of_lookup_2 _ _ _ Hi)) as [-> Hpos].
    assert (Hkeys : (<[i:=(votedPlayerId v, CNum (votes_for (votedPlayerId v) vs + 1))]> o).*1 = o.*1).
    { rewrite list_fmap_insert. apply list_insert_id.
      by rewrite list_lookup_fmap, Hi. }
    split_and!.
    + by rewrite Hkeys.
    + intros k c Hin. rewrite votes_for_snoc.
      apply elem_of_insert_inv in Hin as [[= -> ->]|(j & Hji & Hj)].
      * rewrite decide_True by done. split; [done|lia].
      * destruct (Hval _ _ (list_elem_of_lookup_2 _ _ _ Hj)) as [-> Hp].
        case_decide as Hk; [|by rewrite Nat.add_0_r].
        subst k. destruct Hji.
        apply (NoDup_lookup _ _ _ (votedPlayerId v) Hnd);
          rewrite list_lookup_fmap; [by rewrite Hj|by rewrite Hi].
    + intros k Hk. rewrite Hkeys. rewrite votes_for_snoc in Hk.
      case_decide as Hk'; [subst k|apply Hdom; lia].
      apply list_elem_of_fmap. exists (votedPlayerId v, CNum (votes_for (votedPlayerId v) vs)).
      split; [done|]. by eapply list_elem_of_lookup_2.
  - rewrite decide_False by done.
    assert (Hfresh : votedPlayerId v ∉ o.*1).
    { intros [[k c] [Hk Hin]]%list_elem_of_fmap. simpl in Hk. subst k.
      eapply list_find_None in Hfind. rewrite Forall_forall in Hfind.
      by apply (Hfind _ Hin). }
    assert (Hzero : votes_for (votedPlayerId v) vs = 0).
    { destruct (votes_for (votedPlayerId v) vs) eqn:E; [done|].
      destruct Hfresh. apply Hdom. lia. }
    split_and!.
    + rewrite fmap_app. apply NoDup_app. split_and!; [done| |apply NoDup_singleton].
      intros k Hk ->%list_elem_of_singleton. done.
    + intros k c Hin. rewrite votes_for_snoc.
      apply elem_of_app in Hin as [Hin|[= -> ->]%list_elem_of_singleton].
      * destruct (Hval _ _ Hin) as [-> Hp]. case_decide as Hk; [|by rewrite Nat.add_0_r].
        subst k. lia.
      * rewrite decide_True by done. rewrite Hzero. split; [done|lia].
    + intros k Hk. rewrite fmap_app, elem_of_app. rewrite votes_for_snoc in Hk.
      case_decide as Hk'; [subst k; right; by apply list_elem_of_singleton|].
      left. apply Hdom. lia.
Qed.

Lemma tally_inv_holds vs : plain_votes vs → tally_inv (tally vs) vs.
Proof.
  unfold tally. induction vs as [|v vs IH] using rev_ind; intros Hplain.
  - split_and!; [constructor| |]; simpl.
    + intros k c Hin. by apply not_elem_of_nil in Hin.
    + unfold votes_for. simpl. lia.
  - apply Forall_app in Hplain as [Hvs Hv]. rewrite foldl_snoc.
    apply count_vote_inv; [by inversion Hv|by apply IH].
Qed.

End Tally.

(** ** [Object.entries] and the choice of the winners *)

Section Winners.

Implicit Types (o l : VoteCounts) (k : string).

Lemma entries_Permutation o : entries o ≡ₚ o.
Proof.
  unfold entries. rewrite merge_sort_Permutation.
  induction o as [|e o IH]; [done|]. csimpl.
  rewrite filter_cons.
  destruct (array_index e.1) as [n|] eqn:E; simpl.
  - by apply Permutation_skip.
  - rewrite <- Permutation_middle. by apply Permutation_skip.
Qed.

Lemma filter_none {A} (P : A → Prop) `{!∀ x, Decision (P x)} (xs : list A) :
  (∀ x, x ∈ xs → ¬ P x) → filter P xs = [].
Proof.
  induction xs as [|x xs IH]; intros Hall; [done|].
  rewrite filter_cons_False by (apply Hall; left).
  apply IH. intros y Hy. apply Hall. by right.
Qed.

(** What the loop over the entries has computed after any prefix [l]:
    [maxVotes] bounds every numeric count seen, is one of them unless it
    is still [0], and [winners] lists, in order, the keys that hold it. *)
Lemma pick_winner_fold l :
  let acc := foldl pick_winner (0, []) l in
  acc.2 = (filter (λ e, e.2 = CNum acc.1) l).*1
  ∧ (∀ k c, (k, CNum c) ∈ l → c ≤ acc.1)
  ∧ (acc.1 = 0 ∨ ∃ k, (k, CNum acc.1) ∈ l).
Proof.
  induction l as [|[k c] l IH] using rev_ind; simpl.
  { split_and!; [done| |by left]. intros k c Hin. by apply not_elem_of_nil in Hin. }
  rewrite foldl_snoc. destruct (foldl pick_winner (0, []) l) as [M W].
  simpl in IH. destruct IH as (HW & Hle & Hmax).
  unfold pick_winner. simpl. destruct c as [n|]; simpl.
  - destruct (decide (M < n)) as [Hlt|Hnlt]; simpl.
    + split_and!.
      * rewrite filter_app, filter_cons_True, filter_nil by done.
        rewrite filter_none; [done|].
        intros [k' c'] Hin. simpl. intros ->. apply Hle in Hin. lia.
      * intros k' c' [Hin|[= -> ->]%list_elem_of_singleton]%elem_of_app; [|done].
        apply Hle in Hin. lia.
      * right. exists k. apply elem_of_app. right. by apply list_elem_of_singleton.
    + destruct (decide (n = M)) as [->|Hne]; simpl.
      * split_and!.
        -- rewrite filter_app, fmap_app, filter_cons_True, filter_nil by done.
           by rewrite HW.
        -- intros k' c' [Hin|[= -> ->]%list_elem_of_singleton]%elem_of_app; [|done].
           by apply Hle in Hin.
        -- right. exists k. apply elem_of_app. right. by apply list_elem_of_singleton.
      * split_and!.
        -- rewrite filter_app, filter_cons_False, filter_nil, app_nil_r; [done|].
           simpl. congruence.
        -- intros k' c' [Hin|[= -> ->]%list_elem_of_singleton]%elem_of_app; [|lia].
           by apply Hle in Hin.
        -- destruct Hmax as [->|[k' Hk']]; [by left|].
           right. exists k'. apply elem_of_app. by left.
  - split_and!.
    + rewrite filter_app, filter_cons_False, filter_nil, app_nil_r by done. done.
    + intros k' c' [Hin|[=]%list_elem_of_singleton]%elem_of_app.
      by apply Hle in Hin.
    + destruct Hmax as [->|[k' Hk']]; [by left|].
      right. exists k'. apply elem_of_app. by left.
Qed.

(** The winners, stated on the tally object itself. *)
Lemma find_winners_spec o :
  NoDup o.*1 →
  let M := (find_winners o).1 in
  let W := (find_winners o).2 in
  NoDup W
  ∧ (∀ k, k ∈ W ↔ (k, CNum M) ∈ o)
  ∧ (∀ k c, (k, CNum c) ∈ o → c ≤ M)
  ∧ (M = 0 ∨ ∃ k, (k, CNum M) ∈ o).
Proof.
  intros Hnd. unfold find_winners.
  destruct (pick_winner_fold (entries o)) as (HW & Hle & Hmax).
  pose proof (entries_Permutation o) as Hperm.
  assert (Hmem : ∀ e, e ∈ entries o ↔ e ∈ o) by (intros e; by rewrite Hperm).
  split_and!.
  - rewrite HW. apply (sublist_NoDup _ (entries o).*1).
    + by rewrite Hperm.
    + apply fmap_sublist, sublist_filter.
  - intros k. rewrite HW, <- Hmem. split.
    + intros [[k' c] [-> [Hc Hin]%list_elem_of_filter]]%list_elem_of_fmap.
      simpl in *. by subst c.
    + intros Hin. apply list_elem_of_fmap. eexists (k, _). split; [done|].
      by apply list_elem_of_filter.
  - intros k c Hin. apply (Hle k). by apply Hmem.
  - destruct Hmax as [?|[k Hk]]; [by left|]. right. exists k. by apply Hmem.
Qed.

(** On votes that name no inherited property: the winners are the
    handles with at least one vote and no fewer votes than any other. *)
Lemma winners_are_most_voted vs k :
  plain_votes vs →
  k ∈ (find_winners (tally vs)).2 ↔
  0 < votes_for k vs ∧ ∀ k', votes_for k' vs ≤ votes_for k vs.
Proof.
  intros Hplain. destruct (tally_inv_holds vs Hplain) as (Hnd & Hval & Hdom).
  destruct (find_winners_spec _ Hnd) as (_ & HW & Hle & Hmax).
  rewrite HW. split.
  - intros Hin. destruct (Hval _ _ Hin) as [[= HM] Hpos]. split; [done|].
    intros k'. destruct (decide (votes_for k' vs = 0)) as [->|Hnz]; [lia|].
    assert (k' ∈ (tally vs).*1) as [[k'' c] [-> Hk']]%list_elem_of_fmap
      by (apply Hdom; lia).
    destruct (Hval _ _ Hk') as [-> _]. apply Hle in Hk'. simpl in *. lia.
  - intros [Hpos Hall].
    assert (k ∈ (tally vs).*1) as [[k'' c] [-> Hk]]%list_elem_of_fmap
      by (by apply Hdom).
    destruct (Hval _ _ Hk) as [-> _]. simpl in *.
    pose proof (Hle _ _ Hk) as Hk_le.
    destruct Hmax as [H0|[k' Hk']]; [lia|].
    destruct (Hval _ _ Hk') as [[= HM] _]. specialize (Hall k').
    replace ((find_winners (tally vs)).1) with (votes_for k'' vs) by lia. done.
Qed.

End Winners.

(** ** Awarding the points *)

Section Award.

Implicit Types (ps : list Player) (ws : list string) (w h : string) (p : Player).

Lemma add_points_0 p : add_points 0 p = p.
Proof. destruct p. unfold add_points. simpl. f_equal. lia. Qed.

Lemma add_points_add n m p : add_points n (add_points m p) = add_points (m + n) p.
Proof. unfold add_points. simpl. f_equal. lia. Qed.

Lemma award_point_ids ps w : player_id <$> award_point ps w = player_id <$> ps.
Proof.
  unfold award_point. destruct (list_find _ ps) as [[i p]|] eqn:Hfind; [|done].
  apply list_find_Some in Hfind as (Hi & _ & _).
  rewrite list_fmap_insert. apply list_insert_id.
  by rewrite list_lookup_fmap, Hi.
Qed.

(** [find] looks at the handles only. *)
Lemma found_at_ids ps ps' h i :
  player_id <$> ps = player_id <$> ps' → found_at ps h i ↔ found_at ps' h i.
Proof.
  intros Hids. unfold found_at.
  assert (Hfind : ∀ qs, fst <$> list_find (λ q, player_id q = h) qs
                       = fst <$> list_find (λ x, x = h) (player_id <$> qs)).
  { intros qs. rewrite list_find_fmap. by destruct (list_find _ qs) as [[??]|]. }
  by rewrite !Hfind, Hids.
Qed.

Lemma found_at_Some ps h i :
  found_at ps h i → ∃ p, ps !! i = Some p ∧ player_id p = h.
Proof.
  unfold found_at. destruct (list_find _ ps) as [[j p]|] eqn:Hfind; [|done].
  intros [= ->]. apply list_find_Some in Hfind as (? & ? & _). eauto.
Qed.

Lemma award_point_lookup ps w i p :
  ps !! i = Some p →
  award_point ps w !! i
  = Some (add_points (if decide (found_at ps w i) then 1 else 0) p).
Proof.
  intros Hi. destruct (decide (found_at ps w i)) as [Hf|Hnf];
    unfold found_at in *; unfold award_point;
    destruct (list_find _ ps) as [[j q]|] eqn:Hfind; simplify_eq/=.
  - apply list_find_Some in Hfind as (Hj & _ & _).
    rewrite list_lookup_insert_eq by (by eapply lookup_lt_Some). congruence.
  - rewrite list_lookup_insert_ne by congruence. by rewrite add_points_0.
  - by rewrite add_points_0.
Qed.

Lemma award_ids ps ws : player_id <$> award ps ws = player_id <$> ps.
Proof.
  unfold award. revert ps. induction ws as [|w ws IH]; intros ps; [done|].
  simpl. by rewrite IH, award_point_ids.
Qed.

(** After the whole [winners.forEach]: the player at [i] has one point
    more when its handle is a winner and [find] stops at it, and its points
    are unchanged otherwise. *)
Lemma award_lookup ps ws i p :
  NoDup ws → ps !! i = Some p →
  award ps ws !! i
  = Some (add_points
            (if decide (player_id p ∈ ws ∧ found_at ps (player_id p) i)
             then 1 else 0) p).
Proof.
  unfold award. intros Hnd. revert ps p.
  induction Hnd as [|w ws Hw Hnd IH]; intros ps p Hi; simpl.
  { by rewrite add_points_0. }
  pose proof (award_point_lookup ps w i p Hi) as Hstep.
  rewrite (IH _ _ Hstep), add_points_add. do 2 f_equal.
  assert (Hfound : ∀ h, found_at (award_point ps w) h i ↔ found_at ps h i)
    by (intros h; apply found_at_ids, award_point_ids).
  assert (Hsame : player_id (add_points (if decide (found_at ps w i) then 1 else 0) p)
                  = player_id p) by done.
  rewrite Hsame.
  destruct (decide (found_at ps w i)) as [Hf|Hnf].
  - destruct (found_at_Some _ _ _ Hf) as (q & Hq & Hid).
    assert (q = p) by congruence. subst q. subst w.
    rewrite decide_False by (intros [? _]; done).
    rewrite decide_True; [done|]. split; [by left|done].
  - destruct (decide (player_id p = w)) as [<-|Hne].
    + rewrite decide_False by (intros [? _]; done).
      rewrite decide_False; [done|]. by intros [_ ?].
    + apply decide_ext. rewrite Hfound, elem_of_cons. split.
      * intros [Hin Hat]. split; [by right|done].
      * intros [[Heq|Hin] Hat]; [done|by split].
Qed.




End Award.

(** ** Closing the voting phase *)

Section CloseVoting.

Implicit Types (room : Room) (roomId socketId : string).

Lemma close_voting_players roomId room :
  players (close_voting roomId room).1
  = award (players room) (find_winners (tally (votes room))).2.
Proof. unfold close_voting. simpl. by case_decide. Qed.

Lemma close_voting_votes roomId room :
  votes (close_voting roomId room).1 = votes room.
Proof. unfold close_voting. simpl. by case_decide. Qed.

Lemma close_voting_status roomId room :
  status (close_voting roomId room).1
  = if decide (maxRounds room ≤ currentRound room) then GameOver else Reveal.
Proof. unfold close_voting. simpl. by case_decide. Qed.

Lemma close_voting_winnerOfLastRound roomId room :
  winnerOfLastRound (close_voting roomId room).1
  = head (find_winners (tally (votes room))).2.
Proof. unfold close_voting. simpl. by case_decide. Qed.

Lemma close_voting_frame roomId room :
  let room' := (close_voting roomId room).1 in
  room_id room' = room_id room ∧ hostId room' = hostId room
  ∧ currentRound room' = currentRound room ∧ maxRounds room' = maxRounds room
  ∧ topic room' = topic room ∧ submissions room' = submissions room.
Proof. unfold close_voting. simpl. by case_decide. Qed.


(** The vote that completes the quorum runs the tally. *)
Lemma submit_vote_room_closes socketId roomId votedId room :
  status room = Voting → votedId ≠ socketId →
  length (upsert_vote socketId votedId (votes room)) = length (players room) →
  submit_vote_room socketId roomId votedId room
  = close_voting roomId (set_votes (upsert_vote socketId votedId (votes room)) room).
Proof.
  intros Hst Hne Hlen. unfold submit_vote_room.
  rewrite decide_True, decide_False by done. simpl.
  by rewrite decide_True.
Qed.

End CloseVoting.

(** ** C1: the tally and the points *)


(** A vote for a property name of [Object.prototype] is not counted: here
    ["constructor"] is named twice and ["A"] once, and ["A"] wins. *)
Example inherited_name_not_counted :
  let vs := [mkVote "A" "constructor"; mkVote "B" "constructor"; mkVote "C" "A"] in
  votes_for "constructor" vs = 2
  ∧ tally vs = [("constructor", CText); ("A", CNum 1)]
  ∧ find_winners (tally vs) = (1, ["A"]).
Proof. vm_compute. done. Qed.

(** The tie of the specification: three voters, each names another
    player, every count is 1; all three win and all three gain a point. *)
Example three_way_tie :
  let room :=
    mkRoom "123456" "A"
      [mkPlayer "A" "sA" "alice" 0; mkPlayer "B" "sB" "bob" 0;
       mkPlayer "C" "sC" "carol" 0]
      Voting 1 10 "X" [] [mkVote "A" "B"; mkVote "B" "C"] (Some "A") in
  let room' := (submit_vote_room "C" "123456" "A" room).1 in
  (find_winners (tally (votes room'))).2 = ["B"; "C"; "A"]
  ∧ player_points <$> players room' = [1; 1; 1]
  ∧ winnerOfLastRound room' = Some "B".
Proof. vm_compute. done. Qed.



(** ** Handlers on the server state *)

Section OnRoom.

Implicit Types (st : Server) (room : Room) (roomId : string).

Lemma set_rooms_id st roomId room :
  rooms st !! roomId = Some room →
  set_rooms (<[roomId := room]> (rooms st)) st = st.
Proof. intros H. destruct st. unfold set_rooms. simpl in *. by rewrite insert_id. Qed.

Lemma on_room_absent roomId body st :
  rooms st !! roomId = None → on_room roomId body st = (st, []).
Proof. intros H. unfold on_room. by rewrite H. Qed.

Lemma on_room_present roomId body st room :
  rooms st !! roomId = Some room →
  on_room roomId body st
  = (set_rooms (<[roomId := (body room).1]> (rooms st)) st, (body room).2).
Proof. intros H. unfold on_room. rewrite H. by destruct (body room). Qed.

Lemma on_room_unchanged roomId body st room out :
  rooms st !! roomId = Some room → body room = (room, out) →
  on_room roomId body st = (st, out).
Proof.
  intros H Hb. rewrite (on_room_present _ _ _ _ H), Hb. simpl.
  by rewrite set_rooms_id.
Qed.

Lemma on_room_rooms roomId body st :
  rooms (on_room roomId body st).1
  = match rooms st !! roomId with
    | Some room => <[roomId := (body room).1]> (rooms st)
    | None => rooms st
    end.
Proof. unfold on_room. destruct (rooms st !! roomId); [|done]. by destruct (body _). Qed.

Lemma on_room_sessions roomId body st :
  sessions (on_room roomId body st).1 = sessions st.
Proof. unfold on_room. destruct (rooms st !! roomId); [|done]. by destruct (body _). Qed.

End OnRoom.

(** ** C5: reveal or game over *)

(** C5.  When the vote that completes the quorum is tallied, the room's
    status becomes [game-over] if and only if [currentRound >= maxRounds] at
    that moment, and [reveal] otherwise; the round counters are untouched by
    the tally, and in [game-over] a [next-round] does nothing. *)
Theorem game_over_iff_last_round socketId roomId votedId room :
  status room = Voting → votedId ≠ socketId →
  length (upsert_vote socketId votedId (votes room)) = length (players room) →
  let room' := (submit_vote_room socketId roomId votedId room).1 in
  (status room' = GameOver ↔ maxRounds room ≤ currentRound room)
  ∧ (status room' = Reveal ↔ currentRound room < maxRounds room)
  ∧ currentRound room' = currentRound room
  ∧ maxRounds room' = maxRounds room
  ∧ (status room' = GameOver → ∀ rid, next_round_room rid room' = (room', [])).
Proof.
  intros Hst Hne Hlen room'. subst room'.
  rewrite submit_vote_room_closes by done.
  set (room1 := set_votes (upsert_vote socketId votedId (votes room)) room).
  pose proof (close_voting_status roomId room1) as Hs.
  destruct (close_voting_frame roomId room1) as (_ & _ & Hround & Hmax & _).
  change (maxRounds room1) with (maxRounds room) in *.
  change (currentRound room1) with (currentRound room) in *.
  remember (close_voting roomId room1).1 as r' eqn:Hr'. clear Hr' room1.
  split_and!; [| |done|done|].
  - rewrite Hs. case_decide; split; (done || lia).
  - rewrite Hs. case_decide; split; (done || lia).
  - intros Hover rid. unfold next_round_room. rewrite decide_False; [done|].
    by rewrite Hover.
Qed.

Lemma game_over_iff_last_round_witness :
  status (submit_vote_room "B" "123456" "A" last_round_room).1 = GameOver
  ↔ maxRounds last_round_room ≤ currentRound last_round_room.
Proof.
  assert (H1 : status last_round_room = Voting) by reflexivity.
  assert (H2 : "A" ≠ "B") by discriminate.
  assert (H3 : length (upsert_vote "B" "A" (votes last_round_room))
               = length (players last_round_room)) by reflexivity.
  exact (proj1 (game_over_iff_last_round "B" "123456" "A" last_round_room H1 H2 H3)).
Defined.

(** ** C6: start-game *)

(** C6, as stated, fails: the host of a room with a single player starts
    the game; the room leaves the lobby and no error is emitted. *)
Lemma start_game_with_one_player :
  let A := mkSocket "A" "sA" None in
  let st := run solo_trace initial in
  let started :=
    mkRoom "123456" "A" [mkPlayer "A" "sA" "alice" 0] TopicSelection 1 10 "" [] []
           (Some "A") in
  rooms st !! "123456" = Some solo_room
  ∧ length (players solo_room) = 1
  ∧ rooms (start_game A "123456" st).1 !! "123456" = Some started
  ∧ (start_game A "123456" st).2 = [ToRoom "123456" "game-started" (PRoom started)].
Proof. vm_compute. done. Qed.

(** C6 (amended).  [start-game] changes the room exactly when the caller's
    handle is the room's [hostId], whatever the number of players (the server
    has no player-count test and no [InsufficientPlayers] error; the client
    disables its button below two players).  It then sets the status to
    [topic-selection] (from the lobby: [lobby → topic-selection]) and
    [currentRound] to 1, changes nothing else, and broadcasts
    [game-started].  For any other caller it changes nothing and emits
    nothing. *)
Theorem start_game_checks_host_only st socket roomId room :
  rooms st !! roomId = Some room →
  let started := set_currentRound 1 (set_status TopicSelection room) in
  (hostId room = socket_id socket →
   start_game socket roomId st
   = (set_rooms (<[roomId := started]> (rooms st)) st,
      [ToRoom roomId "game-started" (PRoom started)]))
  ∧ (hostId room ≠ socket_id socket → start_game socket roomId st = (st, []))
  ∧ status started = TopicSelection
  ∧ currentRound started = 1
  ∧ players started = players room
  ∧ submissions started = submissions room
  ∧ votes started = votes room.
Proof.
  intros Hroom started. split_and!; try done.
  - intros Hhost. unfold start_game.
    rewrite (on_room_present _ _ _ _ Hroom). unfold start_game_room.
    by rewrite decide_True.
  - intros Hother. unfold start_game. apply (on_room_unchanged _ _ _ room); [done|].
    unfold start_game_room. by rewrite decide_False.
Qed.

Lemma start_game_checks_host_only_witness :
  let st := run solo_trace initial in
  start_game (mkSocket "Z" "sZ" None) "123456" st = (st, []).
Proof.
  intros st.
  assert (Hroom : rooms st !! "123456" = Some solo_room) by (by vm_compute).
  destruct (start_game_checks_host_only st (mkSocket "Z" "sZ" None) "123456"
              solo_room Hroom) as (_ & Hother & _).
  apply Hother. discriminate.
Defined.

(** ** C7: submit-topic *)

Lemma may_submit_topic_is_judge socketId room :
  may_submit_topic socketId room = true ↔ is_judge socketId room.
Proof.
  unfold may_submit_topic, is_judge, truthy.
  rewrite orb_true_iff, andb_true_iff, !bool_decide_eq_true, negb_true_iff.
  destruct (winnerOfLastRound room) as [w|]; simpl.
  - rewrite negb_false_iff, String.eqb_eq. intuition congruence.
  - intuition congruence.
Qed.

(** C7, as stated, fails on the phase: in the reachable [ghost_room], which
    is in the voting phase, the judge [A] submits a topic; the topic is
    set, the submissions are cleared and the room is back in
    [gif-selection]. *)
Lemma submit_topic_outside_topic_selection :
  rooms (run ghost_trace initial) !! "123456" = Some ghost_room
  ∧ status ghost_room = Voting
  ∧ submit_topic_room "A" "123456" "Y" ghost_room
    = (let room' :=
         mkRoom "123456" "A"
           [mkPlayer "A" "sA" "alice" 0; mkPlayer "B" "sB" "bob" 0]
           GifSelection 1 10 "Y" [] [mkVote "A" "ghost"] (Some "A") in
       (room', [ToRoom "123456" "topic-submitted" (PRoom room')])).
Proof. vm_compute. done. Qed.

(** C7 (amended).  [submit-topic] changes the room exactly when the caller
    is the judge (the caller's handle equals [winnerOfLastRound], or equals
    [hostId] while [winnerOfLastRound] is unset), in whatever phase the room
    is: the handler does not test the status.  It then sets [topic], clears
    [submissions], sets the status to [gif-selection] and broadcasts
    [topic-submitted].  Any other caller is ignored: no change, nothing
    emitted. *)
Theorem submit_topic_checks_judge_only st socket roomId topic' room :
  rooms st !! roomId = Some room →
  let room' := set_submissions [] (set_status GifSelection (set_topic topic' room)) in
  (is_judge (socket_id socket) room →
   submit_topic socket roomId topic' st
   = (set_rooms (<[roomId := room']> (rooms st)) st,
      [ToRoom roomId "topic-submitted" (PRoom room')]))
  ∧ (¬ is_judge (socket_id socket) room →
     submit_topic socket roomId topic' st = (st, []))
  ∧ topic room' = topic' ∧ submissions room' = [] ∧ status room' = GifSelection
  ∧ players room' = players room ∧ votes room' = votes room
  ∧ currentRound room' = currentRound room.
Proof.
  intros Hroom room'. split_and!; try done.
  - intros Hjudge%may_submit_topic_is_judge. unfold submit_topic.
    rewrite (on_room_present _ _ _ _ Hroom). unfold submit_topic_room.
    by rewrite Hjudge.
  - intros Hnot. unfold submit_topic. apply (on_room_unchanged _ _ _ room); [done|].
    unfold submit_topic_room.
    destruct (may_submit_topic (socket_id socket) room) eqn:E; [|done].
    by apply may_submit_topic_is_judge in E.
Qed.

Lemma submit_topic_checks_judge_only_witness :
  let st := run ghost_trace initial in
  submit_topic (mkSocket "B" "sB" None) "123456" "Y" st = (st, []).
Proof.
  intros st.
  assert (Hroom : rooms st !! "123456" = Some ghost_room) by (by vm_compute).
  destruct (submit_topic_checks_judge_only st (mkSocket "B" "sB" None) "123456" "Y"
              ghost_room Hroom) as (_ & Hother & _).
  apply Hother. by compute_done.
Defined.

(** ** C8: next-round *)

(** C8, as stated, fails on the caller: in the reachable [reveal_room],
    whose host is [A], a socket [Z] that is not the host (and not a player)
    sends [next-round]; the round counter goes from 1 to 2, submissions and
    votes are cleared and the room is in [topic-selection]. *)
Lemma next_round_by_non_host :
  let st := run scenario_trace initial in
  let Z := mkSocket "Z" "sZ" None in
  let room' :=
    mkRoom "123456" "A"
      [mkPlayer "A" "sA" "alice" 0; mkPlayer "B" "sB" "bob" 1;
       mkPlayer "C" "sC" "carol" 0]
      TopicSelection 2 10 "X" [] [] (Some "B") in
  rooms st !! "123456" = Some reveal_room
  ∧ hostId reveal_room ≠ socket_id Z
  ∧ rooms (next_round Z "123456" st).1 !! "123456" = Some room'
  ∧ (next_round Z "123456" st).2 = [ToRoom "123456" "new-round" (PRoom room')].
Proof. vm_compute. split_and!; try reflexivity. discriminate. Qed.

(** C8 (amended).  [next-round] changes the room exactly when its status is
    [reveal], whoever the caller is: the handler does not compare the caller
    with [hostId] (the client shows its button to the host only).  It then
    adds exactly 1 to [currentRound], clears [submissions] and [votes], sets
    the status to [topic-selection], changes nothing else, and broadcasts
    [new-round].  In any other phase the room is unchanged and nothing is
    emitted. *)
Theorem next_round_checks_phase_only st socket roomId room :
  rooms st !! roomId = Some room →
  let room' :=
    set_votes [] (set_submissions []
      (set_status TopicSelection (set_currentRound (currentRound room + 1) room))) in
  (status room = Reveal →
   next_round socket roomId st
   = (set_rooms (<[roomId := room']> (rooms st)) st,
      [ToRoom roomId "new-round" (PRoom room')]))
  ∧ (status room ≠ Reveal → next_round socket roomId st = (st, []))
  ∧ currentRound room' = currentRound room + 1
  ∧ submissions room' = [] ∧ votes room' = [] ∧ status room' = TopicSelection
  ∧ players room' = players room ∧ hostId room' = hostId room
  ∧ topic room' = topic room ∧ maxRounds room' = maxRounds room
  ∧ winnerOfLastRound room' = winnerOfLastRound room.
Proof.
  intros Hroom room'. split_and!; try done.
  - intros Hst. unfold next_round.
    rewrite (on_room_present _ _ _ _ Hroom). unfold next_round_room.
    by rewrite decide_True.
  - intros Hst. unfold next_round. apply (on_room_unchanged _ _ _ room); [done|].
    unfold next_round_room. by rewrite decide_False.
Qed.

Lemma next_round_checks_phase_only_witness :
  let st := run ghost_trace initial in
  next_round (mkSocket "A" "sA" None) "123456" st = (st, []).
Proof.
  intros st.
  assert (Hroom : rooms st !! "123456" = Some ghost_room) by (by vm_compute).
  destruct (next_round_checks_phase_only st (mkSocket "A" "sA" None) "123456"
              ghost_room Hroom) as (_ & Hother & _).
  apply Hother. discriminate.
Defined.

(** ** Reconnection *)

Section Rebind.

Implicit Types (st : Server) (room : Room) (socket : Socket) (p : Player).

Lemma set_player_id_same p : set_player_id (player_id p) p = p.
Proof. by destruct p. Qed.

Lemma set_players_same room : set_players (players room) room = room.
Proof. by destruct room. Qed.

Lemma rebind_Some socket room i p :
  list_find (λ q, player_sessionId q = socket_sessionId socket) (players room)
  = Some (i, p) →
  rebind socket room
  = Some (set_players (<[i := set_player_id (socket_id socket) p]> (players room)) room).
Proof. intros H. unfold rebind. by rewrite H. Qed.

Lemma rebind_inv socket room room' :
  rebind socket room = Some room' →
  ∃ i p,
    list_find (λ q, player_sessionId q = socket_sessionId socket) (players room)
    = Some (i, p)
    ∧ room' = set_players (<[i := set_player_id (socket_id socket) p]> (players room)) room.
Proof.
  unfold rebind. destruct (list_find _ _) as [[i p]|]; [|done].
  intros [= <-]. eauto.
Qed.

(** The session ids are untouched by a rebind, so the next lookup by
    session stops at the same seat. *)
Lemma find_session_after_rebind sid h (ps : list Player) i p :
  list_find (λ q, player_sessionId q = sid) ps = Some (i, p) →
  list_find (λ q, player_sessionId q = sid) (<[i := set_player_id h p]> ps)
  = Some (i, set_player_id h p).
Proof.
  intros (Hi & Hp & Hfirst)%list_find_Some. apply list_find_Some. split_and!.
  - apply list_lookup_insert_eq. by eapply lookup_lt_Some.
  - done.
  - intros j q Hj Hlt. rewrite list_lookup_insert_ne in Hj by lia. eauto.
Qed.

Lemma join_room_rebinds st socket roomId playerName now room room' :
  rooms st !! roomId = Some room → rebind socket room = Some room' →
  join_room socket roomId playerName now st
  = (set_rooms (<[roomId := room']> (rooms st)) st,
     [ToRoom roomId "player-joined" (PRoom room')]).
Proof. intros Hroom Hre. unfold join_room. by rewrite Hroom, Hre. Qed.

Lemma connection_rebinds st socket now roomId room room' :
  socket_roomId socket = Some roomId → roomId ≠ "" →
  rooms st !! roomId = Some room → rebind socket room = Some room' →
  rooms (connection socket now st).1 = <[roomId := room']> (rooms st)
  ∧ (connection socket now st).2
    = [ToSocket "session" (PSession (socket_sessionId socket));
       ToSocket "player-joined" (PRoom room');
       ToRoom roomId "player-joined" (PRoom room')].
Proof.
  intros Hsock Hne Hroom Hre. unfold connection. rewrite Hsock.
  assert (truthy (Some roomId) = true) as ->.
  { simpl. apply negb_true_iff. by apply String.eqb_neq. }
  by rewrite Hroom, Hre.
Qed.

(** Whatever the connection handler does to a room, it is a rebind. *)
Lemma connection_rooms st socket now :
  rooms (connection socket now st).1 = rooms st
  ∨ ∃ roomId room room',
      rooms st !! roomId = Some room ∧ rebind socket room = Some room'
      ∧ rooms (connection socket now st).1 = <[roomId := room']> (rooms st).
Proof.
  unfold connection. destruct (socket_roomId socket) as [roomId|]; [|by left].
  destruct (truthy (Some roomId)); [|by left].
  destruct (rooms st !! roomId) as [room|] eqn:Hroom; [|by left].
  destruct (rebind socket room) as [room'|] eqn:Hre; [|by left].
  right. by exists roomId, room, room'.
Qed.

End Rebind.

(** ** C3: rejoining with a known session *)

(** C3.  In a room of any phase, [join-room] calls made with a session id
    that already belongs to a player of the room, any number of them in a
    row, leave the sessions, every player's points, and the room's status,
    [currentRound], [topic], [submissions] and [votes] unchanged: the room
    differs from the original one only in the [id] of that player, which is
    the handle of the last caller.  Each such call emits the [player-joined]
    broadcast and no error. *)
Theorem rejoin_only_rebinds st roomId room sid i p
    (calls : list (Socket * string * nat)) :
  rooms st !! roomId = Some room →
  list_find (λ q, player_sessionId q = sid) (players room) = Some (i, p) →
  Forall (λ c, socket_sessionId c.1.1 = sid) calls →
  let st' := foldl (λ s c, (join_room c.1.1 roomId c.1.2 c.2 s).1) st calls in
  let h := default (player_id p) (last ((λ c, socket_id c.1.1) <$> calls)) in
  let room' := set_players (<[i := set_player_id h p]> (players room)) room in
  rooms st' = <[roomId := room']> (rooms st)
  ∧ sessions st' = sessions st
  ∧ player_points <$> players room' = player_points <$> players room
  ∧ status room' = status room
  ∧ currentRound room' = currentRound room
  ∧ topic room' = topic room
  ∧ submissions room' = submissions room
  ∧ votes room' = votes room
  ∧ players room' !! i = Some (set_player_id h p)
  ∧ (∀ j, j ≠ i → players room' !! j = players room !! j)
  ∧ (∀ socket playerName now,
       socket_sessionId socket = sid →
       (join_room socket roomId playerName now st').2
       = [ToRoom roomId "player-joined"
            (PRoom (set_players
                      (<[i := set_player_id (socket_id socket) p]> (players room))
                      room))]).
Proof.
  intros Hroom Hfind Hcalls st' h room'.
  pose proof (proj1 (list_find_Some _ _ _ _) Hfind) as (Hi & _ & _).
  assert (Hrooms : rooms st' = <[roomId := room']> (rooms st)
                   ∧ sessions st' = sessions st).
  { subst st' h room'. induction calls as [|c calls IH] using rev_ind.
    - simpl. rewrite set_player_id_same, list_insert_id, set_players_same by done.
      by rewrite insert_id.
    - apply Forall_app in Hcalls as [Hcalls Hc]. inversion_clear Hc as [|?? Hsid _].
      destruct (IH Hcalls) as [IHr IHs]. clear IH.
      rewrite foldl_snoc, fmap_app. cbn [fmap list_fmap]. rewrite last_snoc.
      cbn [default].
      set (s := foldl _ st calls) in *.
      set (h := default (player_id p) (last ((λ c, socket_id c.1.1) <$> calls))) in *.
      set (mid := set_players (<[i := set_player_id h p]> (players room)) room) in *.
      assert (Hmid : rooms s !! roomId = Some mid) by (by rewrite IHr, lookup_insert_eq).
      assert (Hre : rebind c.1.1 mid
                    = Some (set_players
                              (<[i := set_player_id (socket_id c.1.1) p]> (players room))
                              room)).
      { erewrite rebind_Some.
        2:{ rewrite Hsid. simpl. by apply find_session_after_rebind. }
        simpl. by rewrite list_insert_insert_eq. }
      rewrite (join_room_rebinds _ _ _ _ _ _ _ Hmid Hre). simpl.
      by rewrite IHr, insert_insert_eq. }
  destruct Hrooms as [Hr Hs].
  split_and!; try done.
  - simpl. rewrite list_fmap_insert. apply list_insert_id.
    by rewrite list_lookup_fmap, Hi.
  - simpl. apply list_lookup_insert_eq. by eapply lookup_lt_Some.
  - intros j Hj. simpl. by rewrite list_lookup_insert_ne.
  - intros socket playerName now Hsid.
    assert (Hmid : rooms st' !! roomId = Some room') by (by rewrite Hr, lookup_insert_eq).
    erewrite join_room_rebinds; [done..|].
    erewrite rebind_Some.
    2:{ rewrite Hsid. simpl. by apply find_session_after_rebind. }
    simpl. by rewrite list_insert_insert_eq.
Qed.

(** In the voting phase of the scenario, [B] rejoins twice, from a socket
    [B2] and then from a socket [B3]. *)
Lemma rejoin_only_rebinds_witness :
  let st := run scenario_trace initial in
  let calls := [(mkSocket "B2" "sB" None, "bob", 7); (mkSocket "B3" "sB" None, "bob", 8)] in
  rooms (foldl (λ s c, (join_room c.1.1 "123456" c.1.2 c.2 s).1) st calls)
  = <[ "123456" :=
         set_players (<[1 := mkPlayer "B3" "sB" "bob" 1]> (players reveal_room))
                     reveal_room ]> (rooms st).
Proof.
  intros st calls.
  assert (Hroom : rooms st !! "123456" = Some reveal_room) by (by vm_compute).
  assert (Hfind : list_find (λ q, player_sessionId q = "sB") (players reveal_room)
                  = Some (1, mkPlayer "B" "sB" "bob" 1)) by reflexivity.
  assert (Hcalls : Forall (λ c : Socket * string * nat, socket_sessionId c.1.1 = "sB") calls)
    by (repeat constructor).
  exact (proj1 (rejoin_only_rebinds st "123456" reveal_room "sB" 1 _ calls
                  Hroom Hfind Hcalls)).
Defined.

(** ** C9: what a reconnection leaves behind *)

(** C9.  Both reconnection paths (the rebind at connection time and the
    existing-session branch of [join-room]) write the [id] of the matched
    player and nothing else: [hostId] and [winnerOfLastRound] keep their
    values, also when the reconnecting player is the host or the last
    winner.  [start-game] and [submit-topic] compare them with the caller's
    new handle: a caller whose new handle is not [hostId] cannot start the
    game, and one who is not the judge by its new handle cannot submit a
    topic. *)
Theorem reconnect_keeps_hostId_and_winner socket room room' :
  rebind socket room = Some room' →
  hostId room' = hostId room
  ∧ winnerOfLastRound room' = winnerOfLastRound room
  ∧ (∃ i p, players room !! i = Some p
            ∧ player_sessionId p = socket_sessionId socket
            ∧ players room' = <[i := set_player_id (socket_id socket) p]> (players room))
  ∧ (∀ st roomId playerName now,
       rooms st !! roomId = Some room →
       rooms (join_room socket roomId playerName now st).1
       = <[roomId := room']> (rooms st))
  ∧ (∀ st roomId now,
       rooms st !! roomId = Some room →
       socket_roomId socket = Some roomId → roomId ≠ "" →
       rooms (connection socket now st).1 = <[roomId := room']> (rooms st))
  ∧ (hostId room ≠ socket_id socket →
     ∀ roomId, start_game_room (socket_id socket) roomId room' = (room', []))
  ∧ (¬ is_judge (socket_id socket) room →
     ∀ roomId topic',
       submit_topic_room (socket_id socket) roomId topic' room' = (room', [])).
Proof.
  intros Hre. destruct (rebind_inv _ _ _ Hre) as (i & p & Hfind & ->).
  apply list_find_Some in Hfind as (Hi & Hp & _).
  split_and!; try done.
  - by exists i, p.
  - intros st roomId playerName now Hroom.
    by rewrite (join_room_rebinds _ _ _ _ _ _ _ Hroom Hre).
  - intros st roomId now Hroom Hsock Hne.
    by destruct (connection_rebinds st socket now roomId _ _ Hsock Hne Hroom Hre).
  - intros Hhost roomId. unfold start_game_room. simpl. by rewrite decide_False.
  - intros Hjudge roomId topic'. unfold submit_topic_room.
    destruct (may_submit_topic _ _) eqn:E; [|done].
    apply may_submit_topic_is_judge in E. by destruct Hjudge.
Qed.

(** The host [A] of [reveal_room] comes back on a new socket [A2]. *)
Lemma reconnect_keeps_hostId_and_winner_witness :
  let A2 := mkSocket "A2" "sA" (Some "123456") in
  let room' :=
    set_players (<[0 := mkPlayer "A2" "sA" "alice" 0]> (players reveal_room))
                reveal_room in
  hostId room' = "A"
  ∧ start_game_room "A2" "123456" room' = (room', []).
Proof.
  intros A2 room'.
  assert (Hre : rebind A2 reveal_room = Some room') by reflexivity.
  destruct (reconnect_keeps_hostId_and_winner A2 reveal_room room' Hre)
    as (Hhost & _ & _ & _ & _ & Hstart & _).
  split; [exact Hhost|]. apply Hstart. discriminate.
Defined.

(** ** C10: a submission from outside the room *)

(** [push] takes the caller's submission whether or not the caller has a
    seat: [players] is read for its length only. *)
Lemma submit_gif_room_new_caller socketId roomId url room :
  status room = GifSelection →
  socketId ∉ playerId <$> submissions room →
  let room' := (submit_gif_room socketId roomId url room).1 in
  submissions room' = submissions room ++ [mkSubmission socketId url]
  ∧ (status room' = Voting ↔ S (length (submissions room)) = length (players room)).
Proof.
  intros Hst Hnew room'. subst room'. unfold submit_gif_room, upsert_submission.
  rewrite decide_True by done.
  destruct (list_find _ (submissions room)) as [[i s]|] eqn:Hfind.
  { apply list_find_Some in Hfind as (Hi & Hs & _). destruct Hnew.
    apply list_elem_of_fmap. exists s. split; [done|]. by eapply list_elem_of_lookup_2. }
  simpl. rewrite length_app. simpl. rewrite Nat.add_1_r.
  case_decide as Hlen; simpl; (split; [done|]); [done|].
  rewrite Hst. split; [discriminate|]. intros Heq. by destruct Hlen.
Qed.

(** C10.  There is a reachable room in [gif-selection] and a socket that is
    no player of it (neither by handle nor by session) whose [submit-gif] is
    stored under its handle and counted: with it [submissions.length]
    equals [players.length] and the room moves to [voting], while a player
    of the room has no submission. *)
Theorem submit_gif_counts_outsider :
  ∃ st outsider roomId url room room',
    reachable st
    ∧ rooms st !! roomId = Some room
    ∧ status room = GifSelection
    ∧ (socket_id outsider ∉ player_id <$> players room)
    ∧ (socket_sessionId outsider ∉ player_sessionId <$> players room)
    ∧ rooms (submit_gif outsider roomId url st).1 !! roomId = Some room'
    ∧ mkSubmission (socket_id outsider) url ∈ submissions room'
    ∧ length (submissions room') = length (players room')
    ∧ players room' = players room
    ∧ status room' = Voting
    ∧ ∃ p, p ∈ players room' ∧ player_id p ∉ playerId <$> submissions room'.
Proof.
  exists (run outsider_trace initial), (mkSocket "Z" "sZ" None), "123456", "u9".
  eexists. eexists. split_and!.
  - by exists outsider_trace.
  - by vm_compute.
  - done.
  - by compute_done.
  - by compute_done.
  - by vm_compute.
  - by compute_done.
  - done.
  - done.
  - done.
  - exists (mkPlayer "B" "sB" "bob" 0). split; by compute_done.
Qed.

(** ** The room invariant *)

Section Invariant.

Implicit Types (st : Server) (room : Room) (a : Action).

(** A room of the new state is a room of the old state, or one a handler
    has stepped, or the room [create-room] has just built. *)
(** The room looked up after a write at [rid]: the written one when
    [rid] is the room asked for, the old one otherwise. *)
Local Ltac written_or_old rid roomId :=
  destruct (decide (rid = roomId)) as [->|?];
  [ rewrite lookup_insert_eq; intros [= <-]; right
  | rewrite lookup_insert_ne by done; by left ].

Lemma step_room_cases a st roomId room' :
  rooms (step a st).1 !! roomId = Some room' →
  rooms st !! roomId = Some room'
  ∨ (∃ room, rooms st !! roomId = Some room ∧ room_step room room')
  ∨ (∃ socket playerName, room' = new_room socket playerName roomId).
Proof.
  assert (Hon : ∀ rid (body : Room → Room * list Emit),
             (∀ room, room_step room (body room).1) →
             rooms (on_room rid body st).1 !! roomId = Some room' →
             rooms st !! roomId = Some room'
             ∨ (∃ room, rooms st !! roomId = Some room ∧ room_step room room')
             ∨ (∃ socket playerName, room' = new_room socket playerName roomId)).
  { intros rid body Hbody. rewrite on_room_rooms.
    destruct (rooms st !! rid) as [room|] eqn:Hroom; [|by left].
    written_or_old rid roomId. left. eauto. }
  destruct a as [socketId auth fresh now|socket playerName rid now
                |socket rid playerName now|socket rid|socket rid topic'
                |socket rid url|socket rid votedId|socket rid|socket|now]; simpl.
  - destruct (connection_rooms st (handshake socketId auth fresh st) now)
      as [->|(rid & room & room1 & Hroom & Hre & ->)]; [by left|].
    written_or_old rid roomId. left.
    exists room. split; [done|]. by eapply rs_rebind.
  - written_or_old rid roomId. right. eauto.
  - unfold join_room. destruct (rooms st !! rid) as [room|] eqn:Hroom; [|by left].
    destruct (rebind socket room) as [room1|] eqn:Hre; simpl.
    + written_or_old rid roomId. left.
      exists room. split; [done|]. by eapply rs_rebind.
    + destruct (decide (status room ≠ Lobby)) as [Hst|Hst]; [by left|]. simpl.
      written_or_old rid roomId. left.
      exists room. split; [done|]. apply rs_join.
      by destruct (decide (status room = Lobby)).
  - apply Hon. intros room. apply rs_start_game.
  - apply Hon. intros room. apply rs_submit_topic.
  - apply Hon. intros room. apply rs_submit_gif.
  - apply Hon. intros room. apply rs_submit_vote.
  - apply Hon. intros room. apply rs_next_round.
  - by left.
  - by left.
Qed.

Lemma length_upsert_submission socketId url (ss : list Submission) :
  length (upsert_submission socketId url ss) ≤ S (length ss)
  ∧ length ss ≤ length (upsert_submission socketId url ss).
Proof.
  unfold upsert_submission. destruct (list_find _ ss) as [[i s]|].
  - rewrite length_insert. lia.
  - rewrite length_app. simpl. lia.
Qed.

Lemma upsert_vote_not_self socketId votedId (vs : list Vote) :
  votedId ≠ socketId →
  Forall (λ v, voterId v ≠ votedPlayerId v) vs →
  Forall (λ v, voterId v ≠ votedPlayerId v) (upsert_vote socketId votedId vs).
Proof.
  intros Hne Hvs. unfold upsert_vote.
  destruct (list_find _ vs) as [[i v]|] eqn:Hfind.
  - apply list_find_Some in Hfind as (Hi & Hv & _).
    apply Forall_insert; [done|]. simpl. congruence.
  - apply Forall_app. split; [done|]. constructor; [|done]. simpl. congruence.
Qed.

Lemma length_award ps ws : length (award ps ws) = length ps.
Proof. by rewrite <- (length_fmap player_id), award_ids, length_fmap. Qed.

Lemma room_step_ok room room' :
  room_step room room' → room_ok room → room_ok room'.
Proof.
  intros Hstep (Hpl & Hle & Hgif & Hself).
  destruct Hstep as [socket room room' Hre|socket playerName room Hst
                    |socketId roomId room|socketId roomId topic' room
                    |socketId roomId url room|socketId roomId votedId room
                    |roomId room].
  - destruct (rebind_inv _ _ _ Hre) as (i & p & _ & ->).
    unfold room_ok. simpl. by rewrite length_insert.
  - unfold room_ok. simpl. rewrite length_app. simpl.
    split_and!; [lia|lia| |done]. intros _. lia.
  - unfold start_game_room. case_decide; [|done].
    unfold room_ok. simpl. split_and!; done.
  - unfold submit_topic_room. destruct (may_submit_topic _ _); [|done].
    unfold room_ok. simpl. split_and!; [done|lia|done|done].
  - unfold submit_gif_room. case_decide as Hst; [|done]. simpl.
    pose proof (length_upsert_submission socketId url (submissions room)) as [Hup _].
    specialize (Hgif Hst).
    case_decide as Hlen; unfold room_ok; simpl.
    + split_and!; [done|lia|done|constructor].
    + split_and!; [done|lia| |done]. intros _. lia.
  - unfold submit_vote_room. case_decide as Hst; [|done].
    case_decide as Hv; [done|]. simpl.
    pose proof (upsert_vote_not_self socketId votedId (votes room) Hv Hself) as Hup.
    case_decide as Hlen.
    + unfold room_ok.
      destruct (close_voting_frame roomId
                  (set_votes (upsert_vote socketId votedId (votes room)) room))
        as (_ & _ & _ & _ & _ & Hsub).
      rewrite close_voting_players, close_voting_votes, close_voting_status,
        length_award, Hsub. simpl.
      split_and!; [done|done| |done]. by case_decide.
    + unfold room_ok. simpl. split_and!; done.
  - unfold next_round_room. case_decide; [|done].
    unfold room_ok. simpl. split_and!; [done|lia|done|constructor].
Qed.

Lemma new_room_ok socket playerName roomId :
  room_ok (new_room socket playerName roomId).
Proof. unfold room_ok. simpl. split_and!; [lia|lia|done|constructor]. Qed.

Lemma step_ok a st : server_ok st → server_ok (step a st).1.
Proof.
  intros Hok roomId room' Hroom'.
  destruct (step_room_cases _ _ _ _ Hroom')
    as [Hsame|[(room & Hroom & Hstep)|(socket & playerName & ->)]].
  - by eapply Hok.
  - eapply room_step_ok; [done|]. by eapply Hok.
  - apply new_room_ok.
Qed.

Lemma run_snoc trace a st : run (trace ++ [a]) st = (step a (run trace st)).1.
Proof. unfold run. by rewrite foldl_snoc. Qed.

Lemma reachable_ok st : reachable st → server_ok st.
Proof.
  intros [trace ->]. induction trace as [|a trace IH] using rev_ind.
  - intros roomId room Hroom. cbn in Hroom. by rewrite lookup_empty in Hroom.
  - rewrite run_snoc. by apply step_ok.
Qed.

Lemma reachable_step a st : reachable st → reachable (step a st).1.
Proof. intros [trace ->]. exists (trace ++ [a]). by rewrite run_snoc. Qed.

(** The only way from [gif-selection] to [voting] is the quorum test of
    [submit-gif]. *)
Lemma room_step_to_voting room room' :
  room_step room room' →
  status room = GifSelection → status room' = Voting →
  length (submissions room') = length (players room').
Proof.
  intros Hstep Hgif.
  destruct Hstep as [socket room room' Hre|socket playerName room Hst
                    |socketId roomId room|socketId roomId topic' room
                    |socketId roomId url room|socketId roomId votedId room
                    |roomId room].
  - destruct (rebind_inv _ _ _ Hre) as (i & p & _ & ->). simpl. congruence.
  - congruence.
  - unfold start_game_room. case_decide; simpl; congruence.
  - unfold submit_topic_room. destruct (may_submit_topic _ _); simpl; congruence.
  - unfold submit_gif_room. rewrite decide_True by done.
    case_decide as Hlen; simpl; [done|congruence].
  - unfold submit_vote_room. rewrite decide_False by congruence. simpl. congruence.
  - unfold next_round_room. rewrite decide_False by congruence. simpl. congruence.
Qed.

End Invariant.

(** ** Submissions and the move to voting *)

(** X21.  In every room of every state the server can reach,
    [submissions.length] is at most [players.length], and smaller while the
    room is in [gif-selection].  During [gif-selection] a [submit-gif] from a
    connection handle that already has a submission replaces the url of that
    submission and appends nothing (the upsert is keyed by [socket.id], not
    by player).  A room goes from [gif-selection] to [voting] only by a
    step after which [submissions.length] equals [players.length], and a
    [submit-gif] in [gif-selection] moves the room to [voting] exactly when
    the two lengths are equal after the upsert. *)
Theorem submissions_never_exceed_players :
  (∀ st roomId room,
     reachable st → rooms st !! roomId = Some room →
     length (submissions room) ≤ length (players room)
     ∧ (status room = GifSelection →
        length (submissions room) < length (players room)))
  ∧ (∀ socketId roomId url room i s,
       status room = GifSelection →
       list_find (λ s, playerId s = socketId) (submissions room) = Some (i, s) →
       let room' := (submit_gif_room socketId roomId url room).1 in
       submissions room' = <[i := mkSubmission socketId url]> (submissions room)
       ∧ length (submissions room') = length (submissions room))
  ∧ (∀ st a roomId room room',
       rooms st !! roomId = Some room →
       rooms (step a st).1 !! roomId = Some room' →
       status room = GifSelection → status room' = Voting →
       length (submissions room') = length (players room'))
  ∧ (∀ socketId roomId url room,
       status room = GifSelection →
       let room' := (submit_gif_room socketId roomId url room).1 in
       (status room' = Voting ↔ length (submissions room') = length (players room'))
       ∧ (status room' = Voting ∨ status room' = GifSelection)).
Proof.
  split_and!.
  - intros st roomId room Hreach Hroom.
    destruct (reachable_ok st Hreach roomId room Hroom) as (_ & Hle & Hlt & _).
    by split.
  - intros socketId roomId url room i s Hst Hfind room'.
    assert (Hup : upsert_submission socketId url (submissions room)
                  = <[i := mkSubmission socketId url]> (submissions room)).
    { unfold upsert_submission. rewrite Hfind.
      apply list_find_Some in Hfind as (_ & <- & _). done. }
    subst room'. unfold submit_gif_room. rewrite decide_True by done.
    case_decide; simpl; rewrite Hup; by rewrite length_insert.
  - intros st a roomId room room' Hroom Hroom' Hgif Hvoting.
    destruct (step_room_cases _ _ _ _ Hroom')
      as [Hsame|[(room0 & Hroom0 & Hstep)|(socket & playerName & ->)]].
    + congruence.
    + assert (room0 = room) as -> by congruence.
      by apply (room_step_to_voting room room').
    + done.
  - intros socketId roomId url room Hst room'. subst room'.
    unfold submit_gif_room. rewrite decide_True by done.
    case_decide as Hlen; simpl.
    + split; [done|by left].
    + rewrite Hst. split; [split; [done|]|by right]. intros Heq. by destruct Hlen.
Qed.

Lemma submissions_never_exceed_players_witness :
  length (submissions reveal_room) ≤ length (players reveal_room).
Proof.
  assert (Hreach : reachable (run scenario_trace initial)) by (by exists scenario_trace).
  assert (Hroom : rooms (run scenario_trace initial) !! "123456" = Some reveal_room)
    by (by vm_compute).
  exact (proj1 (proj1 submissions_never_exceed_players _ _ _ Hreach Hroom)).
Defined.

(** ** C4: no vote for oneself *)

(** C4.  In every room of every state the server can reach, every stored
    vote has [voterId ≠ votedPlayerId].  A [submit-vote] whose
    [votedPlayerId] is the caller's own handle changes nothing in the server
    state and emits nothing, no error either. *)
Theorem stored_votes_never_self :
  (∀ st roomId room v,
     reachable st → rooms st !! roomId = Some room → v ∈ votes room →
     voterId v ≠ votedPlayerId v)
  ∧ (∀ st socket roomId,
       submit_vote socket roomId (socket_id socket) st = (st, [])).
Proof.
  split.
  - intros st roomId room v Hreach Hroom Hv.
    destruct (reachable_ok st Hreach roomId room Hroom) as (_ & _ & _ & Hself).
    rewrite Forall_forall in Hself. by apply Hself.
  - intros st socket roomId. unfold submit_vote.
    destruct (rooms st !! roomId) as [room|] eqn:Hroom.
    + apply (on_room_unchanged _ _ _ room); [done|].
      unfold submit_vote_room. case_decide; [|done]. by rewrite decide_True.
    + by apply on_room_absent.
Qed.

Lemma stored_votes_never_self_witness :
  voterId (mkVote "C" "B") ≠ votedPlayerId (mkVote "C" "B").
Proof.
  assert (Hreach : reachable (run scenario_trace initial)) by (by exists scenario_trace).
  assert (Hroom : rooms (run scenario_trace initial) !! "123456" = Some reveal_room)
    by (by vm_compute).
  assert (Hv : mkVote "C" "B" ∈ votes reveal_room) by (by compute_done).
  exact (proj1 stored_votes_never_self _ _ _ _ Hreach Hroom Hv).
Defined.

(** ** The session-less server on the same points *)

(** In [server/index.js] a second [submit-gif] of the same caller is
    appended, and the two submissions of [A] fill the quorum of a room of
    two. *)
Example sessionless_resubmission_appends :
  let room :=
    mkRoom "123456" "A" [mkPlayer "A" "" "alice" 0; mkPlayer "B" "" "bob" 0]
           GifSelection 1 10 "X" [] [] (Some "A") in
  let room1 := (Sessionless.submit_gif_room "A" "123456" "u1" room).1 in
  let room2 := (Sessionless.submit_gif_room "A" "123456" "u2" room1).1 in
  submissions room2 = [mkSubmission "A" "u1"; mkSubmission "A" "u2"]
  ∧ status room2 = Voting.
Proof. vm_compute. done. Qed.

(** In [server/index.js] a vote for oneself is stored. *)
Example sessionless_self_vote_stored :
  let room :=
    mkRoom "123456" "A"
           [mkPlayer "A" "" "alice" 0; mkPlayer "B" "" "bob" 0; mkPlayer "C" "" "carol" 0]
           Voting 1 10 "X" [] [] (Some "A") in
  votes (Sessionless.submit_vote_room "A" "123456" "A" room).1 = [mkVote "A" "A"].
Proof. vm_compute. done. Qed.

(** * Further properties of the handlers *)

(** ** Steps of a room, with the join guard *)

Section Moves.

Implicit Types (st : Server) (room : Room) (a : Action).

Lemma room_move_step room room' : room_move room room' → room_step room room'.
Proof.
  destruct 1; eauto using room_step.
Qed.

(** A room of the new state is a room of the old state, or one a handler
    has moved, or the room [create-room] has just built. *)
Lemma step_room_moves a st roomId room' :
  rooms (step a st).1 !! roomId = Some room' →
  rooms st !! roomId = Some room'
  ∨ (∃ room, rooms st !! roomId = Some room ∧ room_move room room')
  ∨ (∃ socket playerName, room' = new_room socket playerName roomId).
Proof.
  assert (Hon : ∀ rid (body : Room → Room * list Emit),
             (∀ room, room_move room (body room).1) →
             rooms (on_room rid body st).1 !! roomId = Some room' →
             rooms st !! roomId = Some room'
             ∨ (∃ room, rooms st !! roomId = Some room ∧ room_move room room')
             ∨ (∃ socket playerName, room' = new_room socket playerName roomId)).
  { intros rid body Hbody. rewrite on_room_rooms.
    destruct (rooms st !! rid) as [room|] eqn:Hroom; [|by left].
    destruct (decide (rid = roomId)) as [->|Hne].
    - rewrite lookup_insert_eq. intros [= <-]. right. left. eauto.
    - rewrite lookup_insert_ne by done. by left. }
  destruct a as [socketId auth fresh now|socket playerName rid now
                |socket rid playerName now|socket rid|socket rid topic'
                |socket rid url|socket rid votedId|socket rid|socket|now]; simpl.
  - destruct (connection_rooms st (handshake socketId auth fresh st) now)
      as [->|(rid & room & room1 & Hroom & Hre & ->)]; [by left|].
    destruct (decide (rid = roomId)) as [->|Hne].
    + rewrite lookup_insert_eq. intros [= <-]. right. left.
      exists room. split; [done|]. by eapply rm_rebind.
    + rewrite lookup_insert_ne by done. by left.
  - destruct (decide (rid = roomId)) as [->|Hne].
    + rewrite lookup_insert_eq. intros [= <-]. right. right. eauto.
    + rewrite lookup_insert_ne by done. by left.
  - unfold join_room. destruct (rooms st !! rid) as [room|] eqn:Hroom; [|by left].
    destruct (rebind socket room) as [room1|] eqn:Hre; simpl.
    + destruct (decide (rid = roomId)) as [->|Hne].
      * rewrite lookup_insert_eq. intros [= <-]. right. left.
        exists room. split; [done|]. by eapply rm_rebind.
      * rewrite lookup_insert_ne by done. by left.
    + destruct (decide (status room ≠ Lobby)) as [Hst|Hst]; [by left|]. simpl.
      destruct (decide (rid = roomId)) as [->|Hne].
      * rewrite lookup_insert_eq. intros [= <-]. right. left.
        exists room. split; [done|]. apply rm_join; [done|].
        by destruct (decide (status room = Lobby)).
      * rewrite lookup_insert_ne by done. by left.
  - apply Hon. intros room. apply rm_start_game.
  - apply Hon. intros room. apply rm_submit_topic.
  - apply Hon. intros room. apply rm_submit_gif.
  - apply Hon. intros room. apply rm_submit_vote.
  - apply Hon. intros room. apply rm_next_round.
  - by left.
  - by left.
Qed.

(** No handler removes a room. *)
Lemma step_keeps_rooms a st roomId :
  is_Some (rooms st !! roomId) → is_Some (rooms (step a st).1 !! roomId).
Proof.
  assert (Hon : ∀ rid (body : Room → Room * list Emit),
             is_Some (rooms st !! roomId) →
             is_Some (rooms (on_room rid body st).1 !! roomId)).
  { intros rid body Hsome. rewrite on_room_rooms.
    destruct (rooms st !! rid); [|done]. by apply lookup_insert_is_Some'; right. }
  intros Hsome.
  destruct a as [socketId auth fresh now|socket playerName rid now
                |socket rid playerName now|socket rid|socket rid topic'
                |socket rid url|socket rid votedId|socket rid|socket|now]; simpl;
    try (by apply Hon); try done.
  - destruct (connection_rooms st (handshake socketId auth fresh st) now)
      as [->|(rid & room & room1 & _ & _ & ->)]; [done|].
    by apply lookup_insert_is_Some'; right.
  - by apply lookup_insert_is_Some'; right.
  - unfold join_room. destruct (rooms st !! rid) as [room|]; [|done].
    destruct (rebind socket room); simpl.
    + by apply lookup_insert_is_Some'; right.
    + case_decide; simpl; [done|]. by apply lookup_insert_is_Some'; right.
Qed.

End Moves.

(** ** The shape of the rooms the server can reach *)

Section WellFormed.

Implicit Types (st : Server) (room : Room) (a : Action).

(** Overwriting an element with one that has the same image under [f]
    does not change the list of images. *)
Lemma fmap_insert_same {A B} (f : A → B) (l : list A) i x y :
  l !! i = Some x → f y = f x → f <$> <[i:=y]> l = f <$> l.
Proof.
  intros Hi Hf. rewrite list_fmap_insert, Hf. apply list_insert_id.
  by rewrite list_lookup_fmap, Hi.
Qed.

Lemma find_None_not_elem_of {A B} `{EqDecision B} (f : A → B) (l : list A) b :
  list_find (λ x, f x = b) l = None → b ∉ f <$> l.
Proof.
  intros Hfind [x [-> Hx]]%list_elem_of_fmap.
  eapply list_find_None in Hfind. rewrite Forall_forall in Hfind.
  by apply (Hfind _ Hx).
Qed.

Lemma NoDup_snoc_fresh {A} (l : list A) x : NoDup l → x ∉ l → NoDup (l ++ [x]).
Proof.
  intros Hnd Hx. apply NoDup_app. split_and!; [done| |apply NoDup_singleton].
  intros y Hy ->%list_elem_of_singleton. done.
Qed.

Lemma upsert_submission_playerIds socketId url (ss : list Submission) :
  NoDup (playerId <$> ss) → NoDup (playerId <$> upsert_submission socketId url ss).
Proof.
  intros Hnd. unfold upsert_submission.
  destruct (list_find _ ss) as [[i s]|] eqn:Hfind.
  - apply list_find_Some in Hfind as (Hi & _ & _).
    by rewrite (fmap_insert_same playerId ss i s).
  - rewrite fmap_app. apply NoDup_snoc_fresh; [done|].
    by apply find_None_not_elem_of.
Qed.

Lemma upsert_vote_voterIds socketId votedId (vs : list Vote) :
  NoDup (voterId <$> vs) → NoDup (voterId <$> upsert_vote socketId votedId vs).
Proof.
  intros Hnd. unfold upsert_vote.
  destruct (list_find _ vs) as [[i v]|] eqn:Hfind.
  - apply list_find_Some in Hfind as (Hi & _ & _).
    by rewrite (fmap_insert_same voterId vs i v).
  - rewrite fmap_app. apply NoDup_snoc_fresh; [done|].
    by apply find_None_not_elem_of.
Qed.

Lemma length_upsert_vote socketId votedId (vs : list Vote) :
  length (upsert_vote socketId votedId vs) ≤ S (length vs)
  ∧ length vs ≤ length (upsert_vote socketId votedId vs).
Proof.
  unfold upsert_vote. destruct (list_find _ vs) as [[i v]|].
  - rewrite length_insert. lia.
  - rewrite length_app. simpl. lia.
Qed.

(** The award writes points only. *)
Lemma award_point_keeps {B} (f : Player → B) ps w :
  (∀ n p, f (add_points n p) = f p) → f <$> award_point ps w = f <$> ps.
Proof.
  intros Hf. unfold award_point.
  destruct (list_find _ ps) as [[i p]|] eqn:Hfind; [|done].
  apply list_find_Some in Hfind as (Hi & _ & _).
  by apply (fmap_insert_same f ps i p).
Qed.

Lemma award_keeps {B} (f : Player → B) ps ws :
  (∀ n p, f (add_points n p) = f p) → f <$> award ps ws = f <$> ps.
Proof.
  intros Hf. unfold award. revert ps. induction ws as [|w ws IH]; intros ps; [done|].
  simpl. by rewrite IH, award_point_keeps.
Qed.

Lemma rebind_keeps {B} (f : Player → B) socket room room' :
  (∀ h p, f (set_player_id h p) = f p) →
  rebind socket room = Some room' → f <$> players room' = f <$> players room.
Proof.
  intros Hf Hre. destruct (rebind_inv _ _ _ Hre) as (i & p & Hfind & ->).
  apply list_find_Some in Hfind as (Hi & _ & _). simpl.
  by apply (fmap_insert_same f _ i p).
Qed.

Lemma rebind_frame socket room room' :
  rebind socket room = Some room' →
  room_id room' = room_id room ∧ hostId room' = hostId room
  ∧ status room' = status room ∧ currentRound room' = currentRound room
  ∧ maxRounds room' = maxRounds room ∧ topic room' = topic room
  ∧ submissions room' = submissions room ∧ votes room' = votes room
  ∧ winnerOfLastRound room' = winnerOfLastRound room
  ∧ length (players room') = length (players room).
Proof.
  intros Hre. destruct (rebind_inv _ _ _ Hre) as (i & p & _ & ->). simpl.
  by rewrite length_insert.
Qed.

Lemma Forall_fmap_eq {A B} (f : A → B) (P : B → Prop) (l k : list A) :
  f <$> l = f <$> k → Forall (λ x, P (f x)) k → Forall (λ x, P (f x)) l.
Proof.
  intros Heq Hk.
  apply (Forall_fmap f P k) in Hk. rewrite <- Heq in Hk.
  by apply (Forall_fmap f P l) in Hk.
Qed.

Lemma room_move_wf key room room' :
  room_move room room' → room_ok room → room_wf key room → room_wf key room'.
Proof.
  intros Hmove (Hpl & _ & _ & _)
    (Hid & Hmax & Hround & Hrev & Hover & Hsess & Hsubs & Hvoters & Hvlen & Hvoting & Hlobby).
  destruct Hmove as [socket room room' Hre|socket playerName room Hre Hst
                    |socketId roomId room|socketId roomId topic' room
                    |socketId roomId url room|socketId roomId votedId room
                    |roomId room].
  - destruct (rebind_frame _ _ _ Hre)
      as (E1 & E2 & E3 & E4 & E5 & E6 & E7 & E8 & E9 & E10).
    unfold room_wf. rewrite E1, E2, E3, E4, E5, E7, E8, E9, E10.
    rewrite (rebind_keeps player_sessionId socket room room' (λ _ _, eq_refl) Hre).
    split_and!; try done. intros Hl. destruct (Hlobby Hl) as (? & ? & ? & Hpts & ?).
    split_and!; try done.
    apply (Forall_fmap_eq player_points (λ n, n = 0) _ (players room)); [|done].
    by apply (rebind_keeps player_points socket room room' (λ _ _, eq_refl)).
  - unfold room_wf. simpl. destruct (Hlobby Hst) as (Hs0 & Hv0 & Hr0 & Hpts & Hw).
    rewrite fmap_app, length_app. simpl.
    split_and!; try done; try lia.
    + apply NoDup_snoc_fresh; [done|]. apply find_None_not_elem_of.
      unfold rebind in Hre. by destruct (list_find _ (players room)) as [[??]|].
    + intros _. split_and!; try done. apply Forall_app. split; [done|].
      by constructor.
  - unfold start_game_room. case_decide; [|by unfold room_wf].
    unfold room_wf. simpl. split_and!; try done. lia.
  - unfold submit_topic_room. destruct (may_submit_topic _ _); [|by unfold room_wf].
    unfold room_wf. simpl. split_and!; try done. constructor.
  - unfold submit_gif_room. case_decide as Hst; [|by unfold room_wf]. simpl.
    pose proof (upsert_submission_playerIds socketId url _ Hsubs) as Hup.
    case_decide as Hlen; unfold room_wf; simpl.
    + split_and!; try done; [constructor|lia].
    + rewrite Hst. split_and!; try done.
  - unfold submit_vote_room. case_decide as Hst; [|by unfold room_wf].
    case_decide as Hself; [by unfold room_wf|]. simpl.
    pose proof (upsert_vote_voterIds socketId votedId _ Hvoters) as Hup.
    pose proof (length_upsert_vote socketId votedId (votes room)) as [Hle _].
    specialize (Hvoting Hst).
    case_decide as Hlen.
    + set (room1 := set_votes (upsert_vote socketId votedId (votes room)) room).
      destruct (close_voting_frame roomId room1) as (E1 & _ & E3 & E4 & _ & E6).
      unfold room_wf.
      rewrite E1, E3, E4, E6, close_voting_players, close_voting_votes,
        close_voting_status, length_award.
      rewrite (award_keeps player_sessionId _ _ (λ _ _, eq_refl)).
      change (maxRounds room1) with (maxRounds room).
      change (currentRound room1) with (currentRound room).
      split_and!; try done.
      * case_decide; [done|]. intros _. lia.
      * case_decide; [|done]. intros _. lia.
      * simpl. lia.
      * by case_decide.
      * by case_decide.
    + unfold room_wf. simpl. rewrite Hst. split_and!; try done; try lia.
  - unfold next_round_room. case_decide as Hst; [|by unfold room_wf].
    specialize (Hrev Hst).
    unfold room_wf. simpl. split_and!; try done; try lia; constructor.
Qed.

Lemma new_room_wf socket playerName roomId :
  room_wf roomId (new_room socket playerName roomId).
Proof.
  unfold room_wf. simpl. split_and!; try done; try lia.
  - apply NoDup_singleton.
  - constructor.
  - constructor.
  - intros _. split_and!; try done. by repeat constructor.
Qed.

End WellFormed.

Section ServerWellFormed.

Implicit Types (st : Server) (room : Room) (a : Action).

Lemma connection_sessions socket now st :
  sessions (connection socket now st).1
  = match sessions st !! socket_sessionId socket with
    | Some session =>
        <[socket_sessionId socket :=
            mkSession (session_socketId session) (session_roomId session)
                      (session_playerName session) now]> (sessions st)
    | None => <[socket_sessionId socket := mkSession None None None now]> (sessions st)
    end.
Proof.
  unfold connection. destruct (socket_roomId socket) as [roomId|]; [|done].
  destruct (truthy (Some roomId)); [|done].
  destruct (rooms st !! roomId) as [room|]; [|done].
  by destruct (rebind socket room).
Qed.

(** The room a session names was stored before, or is stored now. *)
Lemma step_session_room a st sid session roomId :
  sessions (step a st).1 !! sid = Some session →
  session_roomId session = Some roomId →
  (∃ s0, sessions st !! sid = Some s0 ∧ session_roomId s0 = Some roomId)
  ∨ is_Some (rooms (step a st).1 !! roomId).
Proof.
  destruct a as [socketId auth fresh now|socket playerName rid now
                |socket rid playerName now|socket rid|socket rid topic'
                |socket rid url|socket rid votedId|socket rid|socket|now]; simpl.
  - rewrite connection_sessions.
    set (sock := handshake socketId auth fresh st).
    destruct (sessions st !! socket_sessionId sock) as [s0|] eqn:Hs0.
    + destruct (decide (socket_sessionId sock = sid)) as [<-|Hne].
      * rewrite lookup_insert_eq. intros [= <-] Hr. left. eauto.
      * rewrite lookup_insert_ne by done. intros Hs Hr. left. eauto.
    + destruct (decide (socket_sessionId sock = sid)) as [<-|Hne].
      * rewrite lookup_insert_eq. by intros [= <-] Hr.
      * rewrite lookup_insert_ne by done. intros Hs Hr. left. eauto.
  - destruct (decide (socket_sessionId socket = sid)) as [<-|Hne].
    + rewrite lookup_insert_eq. intros [= <-] [= <-]. right.
      by rewrite lookup_insert_eq.
    + rewrite lookup_insert_ne by done. intros Hs Hr. left. eauto.
  - unfold join_room. destruct (rooms st !! rid) as [room|] eqn:Hroom;
      [|intros Hs Hr; left; eauto].
    destruct (rebind socket room); simpl; [intros Hs Hr; left; eauto|].
    case_decide; simpl; [intros Hs Hr; left; eauto|].
    destruct (decide (socket_sessionId socket = sid)) as [<-|Hne].
    + rewrite lookup_insert_eq. intros [= <-] [= <-]. right.
      by rewrite lookup_insert_eq.
    + rewrite lookup_insert_ne by done. intros Hs Hr. left. eauto.
  - unfold start_game. rewrite on_room_sessions. intros Hs Hr. left. eauto.
  - unfold submit_topic. rewrite on_room_sessions. intros Hs Hr. left. eauto.
  - unfold submit_gif. rewrite on_room_sessions. intros Hs Hr. left. eauto.
  - unfold submit_vote. rewrite on_room_sessions. intros Hs Hr. left. eauto.
  - unfold next_round. rewrite on_room_sessions. intros Hs Hr. left. eauto.
  - intros Hs Hr. left. eauto.
  - intros [Hs _]%map_lookup_filter_Some Hr. left. eauto.
Qed.

Lemma step_wf a st : server_ok st → server_wf st → server_wf (step a st).1.
Proof.
  intros Hok [Hrooms Hsess]. split.
  - intros roomId room' Hroom'.
    destruct (step_room_moves _ _ _ _ Hroom')
      as [Hsame|[(room & Hroom & Hmove)|(socket & playerName & ->)]].
    + by apply Hrooms.
    + eapply room_move_wf; [done|by eapply Hok|by apply Hrooms].
    + apply new_room_wf.
  - intros sid session roomId Hs Hr.
    destruct (step_session_room _ _ _ _ _ Hs Hr) as [(s0 & Hs0 & Hr0)|Hsome]; [|done].
    apply step_keeps_rooms. by eapply Hsess.
Qed.

Lemma reachable_wf st : reachable st → server_wf st.
Proof.
  intros [trace ->]. induction trace as [|a trace IH] using rev_ind.
  - split.
    + intros roomId room Hroom. cbn in Hroom. by rewrite lookup_empty in Hroom.
    + intros sid session roomId Hs. cbn in Hs. by rewrite lookup_empty in Hs.
  - rewrite run_snoc. apply step_wf; [|done].
    apply reachable_ok. by exists trace.
Qed.

End ServerWellFormed.

(** ** Invariants of the reachable rooms *)

(** X1.  Every room the server can reach is stored under its own [id],
    has [maxRounds = 10], and its [currentRound] never exceeds 10: it is
    below 10 while the room is in [reveal] and exactly 10 in [game-over]. *)
Theorem rounds_stay_within_maxRounds st roomId room :
  reachable st → rooms st !! roomId = Some room →
  room_id room = roomId
  ∧ maxRounds room = 10
  ∧ currentRound room ≤ 10
  ∧ (status room = Reveal → currentRound room < 10)
  ∧ (status room = GameOver → currentRound room = 10).
Proof.
  intros Hreach Hroom.
  destruct (reachable_wf st Hreach) as [Hwf _].
  destruct (Hwf _ _ Hroom) as (Hid & Hmax & Hround & Hrev & Hover & _).
  rewrite Hmax in *. by split_and!.
Qed.

Lemma rounds_stay_within_maxRounds_witness :
  currentRound reveal_room ≤ 10.
Proof.
  assert (Hreach : reachable (run scenario_trace initial)) by (by exists scenario_trace).
  assert (Hroom : rooms (run scenario_trace initial) !! "123456" = Some reveal_room)
    by (by vm_compute).
  destruct (rounds_stay_within_maxRounds _ _ _ Hreach Hroom) as (_ & _ & Hle & _).
  exact Hle.
Defined.

(** X2.  In every room the server can reach no two players have the same
    [sessionId]: [create-room] seats one player and [join-room] appends a
    seat only when [players.find] by session finds none. *)
Theorem one_seat_per_session st roomId room :
  reachable st → rooms st !! roomId = Some room →
  NoDup (player_sessionId <$> players room)
  ∧ (∀ i j p q,
       players room !! i = Some p → players room !! j = Some q →
       player_sessionId p = player_sessionId q → i = j).
Proof.
  intros Hreach Hroom.
  destruct (reachable_wf st Hreach) as [Hwf _].
  destruct (Hwf _ _ Hroom) as (_ & _ & _ & _ & _ & Hnd & _).
  split; [done|]. intros i j p q Hi Hj Heq.
  apply (NoDup_lookup _ i j (player_sessionId p) Hnd);
    rewrite list_lookup_fmap; [by rewrite Hi|by rewrite Hj, Heq].
Qed.

Lemma one_seat_per_session_witness :
  NoDup (player_sessionId <$> players reveal_room).
Proof.
  assert (Hreach : reachable (run scenario_trace initial)) by (by exists scenario_trace).
  assert (Hroom : rooms (run scenario_trace initial) !! "123456" = Some reveal_room)
    by (by vm_compute).
  exact (proj1 (one_seat_per_session _ _ _ Hreach Hroom)).
Defined.

(** X3.  In every room the server can reach there is at most one
    submission per [playerId] and at most one vote per [voterId]: the two
    upserts overwrite the entry [findIndex] finds and [push] only when it
    finds none. *)
Theorem one_entry_per_handle st roomId room :
  reachable st → rooms st !! roomId = Some room →
  NoDup (playerId <$> submissions room) ∧ NoDup (voterId <$> votes room).
Proof.
  intros Hreach Hroom.
  destruct (reachable_wf st Hreach) as [Hwf _].
  by destruct (Hwf _ _ Hroom) as (_ & _ & _ & _ & _ & _ & Hs & Hv & _).
Qed.

Lemma one_entry_per_handle_witness :
  NoDup (voterId <$> votes reveal_room).
Proof.
  assert (Hreach : reachable (run scenario_trace initial)) by (by exists scenario_trace).
  assert (Hroom : rooms (run scenario_trace initial) !! "123456" = Some reveal_room)
    by (by vm_compute).
  exact (proj2 (one_entry_per_handle _ _ _ Hreach Hroom)).
Defined.

(** The only way out of [voting] into [reveal] or [game-over] is the
    quorum test of [submit-vote]. *)
Lemma room_move_closes room room' :
  room_move room room' →
  status room = Voting → status room' = Reveal ∨ status room' = GameOver →
  length (votes room') = length (players room').
Proof.
  intros Hmove Hv.
  destruct Hmove as [socket room room' Hre|socket playerName room Hre Hst
                    |socketId roomId room|socketId roomId topic' room
                    |socketId roomId url room|socketId roomId votedId room
                    |roomId room].
  - destruct (rebind_frame _ _ _ Hre) as (_ & _ & E & _). rewrite E, Hv.
    by intros [|].
  - congruence.
  - unfold start_game_room. case_decide; simpl; [|rewrite Hv]; by intros [|].
  - unfold submit_topic_room. destruct (may_submit_topic _ _); simpl;
      [|rewrite Hv]; by intros [|].
  - unfold submit_gif_room. rewrite decide_False by congruence. simpl.
    rewrite Hv. by intros [|].
  - unfold submit_vote_room. rewrite decide_True by done.
    case_decide; [simpl; rewrite Hv; by intros [|]|].
    case_decide as Hlen; [|simpl; rewrite Hv; by intros [|]].
    intros _. by rewrite close_voting_votes, close_voting_players, length_award.
  - unfold next_round_room. rewrite decide_False by congruence. simpl.
    rewrite Hv. by intros [|].
Qed.

(** X4.  In every room the server can reach [votes.length] is at most
    [players.length], and smaller while the room is in [voting]; a room
    leaves [voting] for [reveal] or [game-over] only by a step after which
    the two lengths are equal. *)
Theorem votes_never_exceed_players :
  (∀ st roomId room,
     reachable st → rooms st !! roomId = Some room →
     length (votes room) ≤ length (players room)
     ∧ (status room = Voting → length (votes room) < length (players room)))
  ∧ (∀ st a roomId room room',
       rooms st !! roomId = Some room →
       rooms (step a st).1 !! roomId = Some room' →
       status room = Voting → status room' = Reveal ∨ status room' = GameOver →
       length (votes room') = length (players room')).
Proof.
  split.
  - intros st roomId room Hreach Hroom.
    destruct (reachable_wf st Hreach) as [Hwf _].
    by destruct (Hwf _ _ Hroom) as (_ & _ & _ & _ & _ & _ & _ & _ & Hle & Hlt & _).
  - intros st a roomId room room' Hroom Hroom' Hv Hend.
    destruct (step_room_moves _ _ _ _ Hroom')
      as [Hsame|[(room0 & Hroom0 & Hmove)|(socket & playerName & ->)]].
    + assert (room' = room) as -> by congruence. rewrite Hv in Hend. by destruct Hend.
    + assert (room0 = room) as -> by congruence.
      by apply (room_move_closes room room').
    + by destruct Hend.
Qed.

Lemma votes_never_exceed_players_witness :
  length (votes reveal_room) ≤ length (players reveal_room).
Proof.
  assert (Hreach : reachable (run scenario_trace initial)) by (by exists scenario_trace).
  assert (Hroom : rooms (run scenario_trace initial) !! "123456" = Some reveal_room)
    by (by vm_compute).
  exact (proj1 (proj1 votes_never_exceed_players _ _ _ Hreach Hroom)).
Defined.

(** X5.  A room the server can reach that is still in the lobby has seen no
    play: no submissions, no votes, round 0, every player at 0 points, and
    [winnerOfLastRound] still the creator's handle [hostId], so that a
    caller with that handle passes the guard of [submit-topic]. *)
Theorem lobby_room_is_untouched st roomId room :
  reachable st → rooms st !! roomId = Some room → status room = Lobby →
  submissions room = [] ∧ votes room = [] ∧ currentRound room = 0
  ∧ Forall (λ p, player_points p = 0) (players room)
  ∧ winnerOfLastRound room = Some (hostId room)
  ∧ may_submit_topic (hostId room) room = true.
Proof.
  intros Hreach Hroom Hst.
  destruct (reachable_wf st Hreach) as [Hwf _].
  destruct (Hwf _ _ Hroom) as (_ & _ & _ & _ & _ & _ & _ & _ & _ & _ & Hlobby).
  destruct (Hlobby Hst) as (? & ? & ? & ? & Hw). split_and!; try done.
  apply may_submit_topic_is_judge. by left.
Qed.

Lemma lobby_room_is_untouched_witness :
  winnerOfLastRound solo_room = Some (hostId solo_room).
Proof.
  assert (Hreach : reachable (run solo_trace initial)) by (by exists solo_trace).
  assert (Hroom : rooms (run solo_trace initial) !! "123456" = Some solo_room)
    by (by vm_compute).
  assert (Hst : status solo_room = Lobby) by reflexivity.
  destruct (lobby_room_is_untouched _ _ _ Hreach Hroom Hst) as (_ & _ & _ & _ & Hw & _).
  exact Hw.
Defined.

(** X6.  In every state the server can reach, the [roomId] a session
    carries names a room that is in the [rooms] map: rooms are never
    deleted, and a session gets a [roomId] only from [create-room] and from
    the new-player branch of [join-room]. *)
Theorem session_room_exists st sid session roomId :
  reachable st →
  sessions st !! sid = Some session → session_roomId session = Some roomId →
  is_Some (rooms st !! roomId).
Proof.
  intros Hreach Hs Hr. destruct (reachable_wf st Hreach) as [_ Hsess]. eauto.
Qed.

Lemma session_room_exists_witness :
  is_Some (rooms (run scenario_trace initial) !! "123456").
Proof.
  assert (Hreach : reachable (run scenario_trace initial)) by (by exists scenario_trace).
  assert (Hs : sessions (run scenario_trace initial) !! "sB"
               = Some (mkSession (Some "B") (Some "123456") (Some "bob") 1))
    by (by vm_compute).
  exact (session_room_exists _ "sB" _ "123456" Hreach Hs eq_refl).
Defined.

(** ** What one step does to a room *)

Section OneStep.

Implicit Types (st : Server) (room : Room) (a : Action).

Lemma count_vote_keys_NoDup (o : VoteCounts) v :
  NoDup o.*1 → NoDup (count_vote o v).*1.
Proof.
  intros Hnd. unfold count_vote.
  destruct (list_find _ o) as [[i [k c]]|] eqn:Hfind.
  - apply list_find_Some in Hfind as (Hi & Hk & _). simpl in Hk. subst k.
    destruct c; [|done].
    by rewrite (fmap_insert_same fst o i (votedPlayerId v, CNum n)).
  - pose proof (find_None_not_elem_of fst o _ Hfind) as Hfresh.
    repeat case_decide; try done; rewrite fmap_app; by apply NoDup_snoc_fresh.
Qed.

(** The keys of the tally object are distinct, whatever the votes name. *)
Lemma tally_keys_NoDup vs : NoDup (tally vs).*1.
Proof.
  unfold tally. induction vs as [|v vs IH] using rev_ind; [constructor|].
  rewrite foldl_snoc. by apply count_vote_keys_NoDup.
Qed.

Lemma winners_NoDup vs : NoDup (find_winners (tally vs)).2.
Proof. by destruct (find_winners_spec _ (tally_keys_NoDup vs)) as (? & _). Qed.

(** The handler left the player list as it was. *)
Local Ltac same_players := split; [done|]; right; right; by left.

(** The four things a handler can do to the player list: rebind one
    handle, append a seat in the lobby, nothing, or award the points of a
    closed round. *)
Lemma room_move_players room room' :
  room_move room room' →
  hostId room' = hostId room
  ∧ ((∃ socket, rebind socket room = Some room')
     ∨ (∃ p, status room = Lobby ∧ status room' = Lobby
             ∧ players room' = players room ++ [p] ∧ player_points p = 0)
     ∨ players room' = players room
     ∨ (status room = Voting
        ∧ (status room' = Reveal ∨ status room' = GameOver)
        ∧ ∃ ws, NoDup ws ∧ players room' = award (players room) ws)).
Proof.
  destruct 1 as [socket room room' Hre|socket playerName room Hre Hst
                |socketId roomId room|socketId roomId topic' room
                |socketId roomId url room|socketId roomId votedId room
                |roomId room].
  - destruct (rebind_frame _ _ _ Hre) as (_ & E & _). split; [done|]. left. eauto.
  - split; [done|]. right. left. eexists. by split_and!.
  - unfold start_game_room. case_decide; simpl; same_players.
  - unfold submit_topic_room. destruct (may_submit_topic _ _); simpl; same_players.
  - unfold submit_gif_room. repeat case_decide; simpl; same_players.
  - unfold submit_vote_room. case_decide as Hst; [|same_players].
    case_decide; [same_players|].
    case_decide as Hlen; [|same_players].
    set (room1 := set_votes (upsert_vote socketId votedId (votes room)) room).
    destruct (close_voting_frame roomId room1) as (_ & E & _).
    split; [done|]. right. right. right. split_and!; [done| |].
    + rewrite close_voting_status. case_decide; [by right|by left].
    + exists (find_winners (tally (votes room1))).2. split; [apply winners_NoDup|].
      by rewrite close_voting_players.
  - unfold next_round_room. case_decide; simpl; same_players.
Qed.

Lemma room_move_phase room room' :
  room_move room room' →
  status room' = status room
  ∨ status room' = TopicSelection
  ∨ status room' = GifSelection
  ∨ (status room = GifSelection ∧ status room' = Voting)
  ∨ (status room = Voting ∧ (status room' = Reveal ∨ status room' = GameOver)).
Proof.
  destruct 1 as [socket room room' Hre|socket playerName room Hre Hst
                |socketId roomId room|socketId roomId topic' room
                |socketId roomId url room|socketId roomId votedId room
                |roomId room].
  - destruct (rebind_frame _ _ _ Hre) as (_ & _ & E & _). by left.
  - by left.
  - unfold start_game_room. case_decide; simpl; [right; by left|by left].
  - unfold submit_topic_room. destruct (may_submit_topic _ _); simpl;
      [right; right; by left|by left].
  - unfold submit_gif_room. case_decide as Hst; [|by left].
    case_decide; simpl; [right; right; right; by left|by left].
  - unfold submit_vote_room. case_decide as Hst; [|by left].
    case_decide; [by left|]. case_decide; [|by left].
    right. right. right. right. split; [done|].
    rewrite close_voting_status. case_decide; [by right|by left].
  - unfold next_round_room. case_decide; simpl; [right; by left|by left].
Qed.

End OneStep.

(** X7.  The phases a room can come from, for any one action on any
    state: a room is in the lobby only if it was there before or has just
    been created; it is in [voting] only if it was in [voting] or
    [gif-selection]; it is in [reveal] or in [game-over] only if it was
    there already or in [voting]. *)
Theorem phases_follow_the_round st a roomId room room' :
  rooms st !! roomId = Some room →
  rooms (step a st).1 !! roomId = Some room' →
  (status room' = Lobby →
   status room = Lobby ∨ ∃ socket playerName, room' = new_room socket playerName roomId)
  ∧ (status room' = Voting → status room = Voting ∨ status room = GifSelection)
  ∧ (status room' = Reveal → status room = Reveal ∨ status room = Voting)
  ∧ (status room' = GameOver → status room = GameOver ∨ status room = Voting).
Proof.
  intros Hroom Hroom'.
  destruct (step_room_moves _ _ _ _ Hroom')
    as [Hsame|[(room0 & Hroom0 & Hmove)|(socket & playerName & ->)]].
  - assert (room' = room) as -> by congruence. split_and!; intros ?; by left.
  - assert (room0 = room) as -> by congruence.
    destruct (room_move_phase _ _ Hmove)
      as [E|[E|[E|[[E1 E2]|[E1 [E2|E2]]]]]]; rewrite ?E, ?E2;
      split_and!; intros ?; try done; try (by left); try (by right); congruence.
  - split_and!; try done. intros _. right. eauto.
Qed.

Lemma phases_follow_the_round_witness :
  status ghost_room = Reveal ∨ status ghost_room = Voting.
Proof.
  assert (Hroom : rooms (run ghost_trace initial) !! "123456" = Some ghost_room)
    by (by vm_compute).
  assert (Hroom' : rooms (step (SubmitVote (mkSocket "B" "sB" None) "123456" "ghost")
                            (run ghost_trace initial)).1 !! "123456"
                   = Some (submit_vote_room "B" "123456" "ghost" ghost_room).1)
    by (by vm_compute).
  destruct (phases_follow_the_round _ _ "123456" _ _ Hroom Hroom') as (_ & _ & Hrev & _).
  apply Hrev. reflexivity.
Defined.

Lemma lookup_same_fmap {A B} (f : A → B) (l l' : list A) i x :
  f <$> l' = f <$> l → l !! i = Some x → ∃ x', l' !! i = Some x' ∧ f x' = f x.
Proof.
  intros Heq Hi.
  assert (Hf : (f <$> l') !! i = Some (f x)) by (by rewrite Heq, list_lookup_fmap, Hi).
  rewrite list_lookup_fmap in Hf. destruct (l' !! i) as [x'|]; [|done].
  exists x'. split; [done|]. by inversion Hf.
Qed.

(** X8.  Any one action leaves the seats of a room as they are: the
    sequence of (session id, name) pairs of the players only grows, by at
    most one seat at its end, and does not change at all once the room has
    left the lobby; [hostId] never changes.  The one exception is a
    [create-room] that draws the id of the room, which replaces it. *)
Theorem seats_are_kept st a roomId room room' :
  rooms st !! roomId = Some room →
  rooms (step a st).1 !! roomId = Some room' →
  (∃ socket playerName, room' = new_room socket playerName roomId)
  ∨ (hostId room' = hostId room
     ∧ seats room `prefix_of` seats room'
     ∧ length (players room') ≤ S (length (players room))
     ∧ (status room ≠ Lobby → seats room' = seats room)).
Proof.
  intros Hroom Hroom'.
  destruct (step_room_moves _ _ _ _ Hroom')
    as [Hsame|[(room0 & Hroom0 & Hmove)|(socket & playerName & ->)]].
  - assert (room' = room) as -> by congruence. right. split_and!; try done. lia.
  - assert (room0 = room) as -> by congruence. right.
    destruct (room_move_players _ _ Hmove)
      as [Hhost [[socket Hre]|[(p & Hst & _ & Hps & _)|[Hps|(_ & _ & ws & _ & Hps)]]]];
      (split; [done|]); unfold seats.
    + rewrite (rebind_keeps seat socket room room' (λ _ _, eq_refl) Hre).
      destruct (rebind_frame _ _ _ Hre) as (_ & _ & _ & _ & _ & _ & _ & _ & _ & Hlen).
      split_and!; try done. lia.
    + rewrite Hps, fmap_app, length_app. simpl.
      split_and!; [by apply prefix_app_r|lia|done].
    + rewrite Hps. split_and!; try done. lia.
    + rewrite Hps, (award_keeps seat _ _ (λ _ _, eq_refl)), length_award.
      split_and!; try done. lia.
  - left. eauto.
Qed.

Lemma seats_are_kept_witness :
  let st := run ghost_trace initial in
  let B := mkSocket "B" "sB" None in
  (∃ socket playerName,
     (submit_vote_room "B" "123456" "ghost" ghost_room).1
     = new_room socket playerName "123456")
  ∨ (hostId (submit_vote_room "B" "123456" "ghost" ghost_room).1 = hostId ghost_room
     ∧ seats ghost_room `prefix_of` seats (submit_vote_room "B" "123456" "ghost" ghost_room).1
     ∧ length (players (submit_vote_room "B" "123456" "ghost" ghost_room).1)
       ≤ S (length (players ghost_room))
     ∧ (status ghost_room ≠ Lobby
        → seats (submit_vote_room "B" "123456" "ghost" ghost_room).1 = seats ghost_room)).
Proof.
  intros st B.
  assert (Hroom : rooms st !! "123456" = Some ghost_room) by (by vm_compute).
  assert (Hroom' : rooms (step (SubmitVote B "123456" "ghost") st).1 !! "123456"
                   = Some (submit_vote_room "B" "123456" "ghost" ghost_room).1)
    by (by vm_compute).
  exact (seats_are_kept st _ "123456" _ _ Hroom Hroom').
Defined.

(** X9.  Any one action leaves every player's points as they are or adds
    exactly one; points never decrease, and they change only in the step
    that takes the room from [voting] to [reveal] or [game-over].  (A
    [create-room] that draws the id of the room replaces it.) *)
Theorem points_change_only_at_tally st a roomId room room' :
  rooms st !! roomId = Some room →
  rooms (step a st).1 !! roomId = Some room' →
  (∃ socket playerName, room' = new_room socket playerName roomId)
  ∨ (∀ i p, players room !! i = Some p →
       ∃ p', players room' !! i = Some p'
             ∧ seat p' = seat p
             ∧ (player_points p' = player_points p
                ∨ (player_points p' = player_points p + 1
                   ∧ status room = Voting
                   ∧ (status room' = Reveal ∨ status room' = GameOver)))).
Proof.
  intros Hroom Hroom'.
  destruct (step_room_moves _ _ _ _ Hroom')
    as [Hsame|[(room0 & Hroom0 & Hmove)|(socket & playerName & ->)]].
  - assert (room' = room) as -> by congruence. right. intros i p Hi.
    exists p. split_and!; [done|done|by left].
  - assert (room0 = room) as -> by congruence. right. intros i p Hi.
    destruct (room_move_players _ _ Hmove)
      as [_ [[socket Hre]|[(q & Hst & _ & Hps & _)|[Hps|(Hv & Hend & ws & Hnd & Hps)]]]].
    + pose proof (rebind_keeps (λ p, (seat p, player_points p)) socket room room'
                    (λ _ _, eq_refl) Hre) as Heq.
      destruct (lookup_same_fmap _ _ _ _ _ Heq Hi) as (p' & Hp' & [= Hseat1 Hseat2 Hpts]).
      exists p'. split_and!; [done| |by left]. unfold seat. by rewrite Hseat1, Hseat2.
    + exists p. rewrite Hps. split_and!; [by apply lookup_app_l_Some|done|by left].
    + exists p. rewrite Hps. split_and!; [done|done|by left].
    + rewrite Hps, (award_lookup _ _ _ _ Hnd Hi). eexists. split; [done|].
      split; [done|]. case_decide; simpl; [right|left; lia]. by split_and!.
  - left. eauto.
Qed.

Lemma points_change_only_at_tally_witness :
  let st := run scenario_trace initial in
  let Z := mkSocket "Z" "sZ" None in
  (∃ socket playerName, (next_round_room "123456" reveal_room).1
                        = new_room socket playerName "123456")
  ∨ (∀ i p, players reveal_room !! i = Some p →
       ∃ p', players (next_round_room "123456" reveal_room).1 !! i = Some p'
             ∧ seat p' = seat p
             ∧ (player_points p' = player_points p
                ∨ (player_points p' = player_points p + 1
                   ∧ status reveal_room = Voting
                   ∧ (status (next_round_room "123456" reveal_room).1 = Reveal
                      ∨ status (next_round_room "123456" reveal_room).1 = GameOver)))).
Proof.
  intros st Z.
  assert (Hroom : rooms st !! "123456" = Some reveal_room) by (by vm_compute).
  assert (Hroom' : rooms (step (NextRound Z "123456") st).1 !! "123456"
                   = Some (next_round_room "123456" reveal_room).1)
    by (by vm_compute).
  exact (points_change_only_at_tally st _ "123456" _ _ Hroom Hroom').
Defined.

(** ** The judge of the next round *)

Section Judge.

Implicit Types (vs : list Vote) (o : VoteCounts) (k : string).

Lemma upsert_vote_not_nil socketId votedId vs : upsert_vote socketId votedId vs ≠ [].
Proof.
  unfold upsert_vote. destruct (list_find _ vs) as [[i v]|] eqn:Hfind.
  - apply list_find_Some in Hfind as (Hi & _). intros Hnil.
    apply (f_equal length) in Hnil. rewrite length_insert in Hnil.
    apply lookup_lt_Some in Hi. simpl in Hnil. lia.
  - by destruct vs.
Qed.

Lemma votes_for_pos k vs :
  0 < votes_for k vs ↔ ∃ v, v ∈ vs ∧ votedPlayerId v = k.
Proof.
  unfold votes_for. split.
  - intros Hpos. destruct (filter _ vs) as [|v l] eqn:Hf; [simpl in Hpos; lia|].
    assert (v ∈ filter (λ v, votedPlayerId v = k) vs) as [? ?]%list_elem_of_filter
      by (rewrite Hf; left).
    eauto.
  - intros (v & Hv & Hk).
    assert (v ∈ filter (λ v, votedPlayerId v = k) vs) as Hin
      by (by apply list_elem_of_filter).
    destruct (filter _ vs); [by apply not_elem_of_nil in Hin|simpl; lia].
Qed.

(** With at least one vote, none of which names an inherited property,
    there is a winner. *)
Lemma winners_not_nil vs :
  plain_votes vs → vs ≠ [] → (find_winners (tally vs)).2 ≠ [].
Proof.
  intros Hplain Hne. destruct vs as [|v vs']; [done|]. clear Hne.
  set (vs := v :: vs') in *.
  destruct (tally_inv_holds vs Hplain) as (Hnd & Hval & Hdom).
  destruct (find_winners_spec _ Hnd) as (_ & HW & Hle & Hmax).
  assert (Hpos : 0 < votes_for (votedPlayerId v) vs).
  { apply votes_for_pos. exists v. split; [left|done]. }
  apply Hdom in Hpos as Hin.
  apply list_elem_of_fmap in Hin as [[k c] [Hk Hin]]. simpl in Hk. subst k.
  destruct (Hval _ _ Hin) as [-> _]. apply Hle in Hin as Hbound.
  destruct Hmax as [H0|[k Hk]]; [lia|].
  apply HW in Hk. intros Hnil. rewrite Hnil in Hk. by apply not_elem_of_nil in Hk.
Qed.









End Judge.

(** X10.  When the vote that completes the quorum is tallied and no stored
    vote names a property of [Object.prototype], [winnerOfLastRound]
    becomes a handle that has at least one vote and no fewer votes than any
    other handle; unless that handle is the empty string, a caller passes
    the guard of [submit-topic] afterwards exactly when its handle is that
    one. *)
Theorem tally_names_most_voted_judge socketId roomId votedId room :
  status room = Voting → votedId ≠ socketId →
  let vs := upsert_vote socketId votedId (votes room) in
  length vs = length (players room) →
  plain_votes vs →
  let room' := (submit_vote_room socketId roomId votedId room).1 in
  ∃ w, winnerOfLastRound room' = Some w
       ∧ 0 < votes_for w vs
       ∧ (∀ k, votes_for k vs ≤ votes_for w vs)
       ∧ (w ≠ "" → ∀ caller, may_submit_topic caller room' = true ↔ caller = w).
Proof.
  intros Hst Hne vs Hlen Hplain room'. subst room'.
  rewrite submit_vote_room_closes by done.
  set (room1 := set_votes vs room).
  pose proof (close_voting_winnerOfLastRound roomId room1) as Hw.
  change (votes room1) with vs in Hw.
  pose proof (winners_not_nil vs Hplain (upsert_vote_not_nil _ _ _)) as Hnil.
  destruct ((find_winners (tally vs)).2) as [|w ws] eqn:HW; [done|].
  exists w. change (head (w :: ws)) with (Some w) in Hw.
  assert (Hin : w ∈ (find_winners (tally vs)).2) by (rewrite HW; left).
  apply (winners_are_most_voted vs w Hplain) in Hin as [Hpos Hmost].
  split_and!; try done.
  intros Hw0 caller. rewrite may_submit_topic_is_judge. unfold is_judge.
  unfold room1, vs in Hw. rewrite Hw.
  split.
  - intros [[= ->]|[_ [?|[= ?]]]]; done.
  - intros ->. by left.
Qed.

Lemma tally_names_most_voted_judge_witness :
  ∃ w, winnerOfLastRound (submit_vote_room "B" "123456" "A" scenario_room).1 = Some w
       ∧ 0 < votes_for w (upsert_vote "B" "A" (votes scenario_room)).
Proof.
  assert (H1 : status scenario_room = Voting) by reflexivity.
  assert (H2 : "A" ≠ "B") by discriminate.
  assert (H3 : length (upsert_vote "B" "A" (votes scenario_room))
               = length (players scenario_room)) by reflexivity.
  assert (H4 : plain_votes (upsert_vote "B" "A" (votes scenario_room)))
    by (by compute_done).
  destruct (tally_names_most_voted_judge "B" "123456" "A" scenario_room H1 H2 H3 H4)
    as (w & Hw & Hpos & _).
  exists w. by split.
Defined.



(** ** Joining and creating *)

Lemma rebind_None_iff socket room :
  rebind socket room = None
  ↔ socket_sessionId socket ∉ player_sessionId <$> players room.
Proof.
  unfold rebind. split.
  - destruct (list_find _ (players room)) as [[i p]|] eqn:Hfind; [done|].
    intros _. by apply find_None_not_elem_of.
  - intros Hnot. destruct (list_find _ (players room)) as [[i p]|] eqn:Hfind; [|done].
    apply list_find_Some in Hfind as (Hi & Hp & _). destruct Hnot.
    apply list_elem_of_fmap. exists p. split; [done|]. by eapply list_elem_of_lookup_2.
Qed.

(** X12.  The outcomes of [join-room] for a caller whose session has no
    seat in the room.  An unknown room id: the error [Room not found] to
    the caller and no change.  A room that has left the lobby: the error
    [Game already started] to the caller and no change.  A room in the
    lobby: one player with the caller's handle, session and name and 0
    points is appended, the caller's session is recorded with the room id,
    and the room is broadcast. *)
Theorem join_room_outcomes st socket roomId playerName now :
  (rooms st !! roomId = None →
   join_room socket roomId playerName now st
   = (st, [ToSocket "error" (PError "Room not found")]))
  ∧ (∀ room,
       rooms st !! roomId = Some room →
       socket_sessionId socket ∉ player_sessionId <$> players room →
       (status room ≠ Lobby →
        join_room socket roomId playerName now st
        = (st, [ToSocket "error" (PError "Game already started")]))
       ∧ (status room = Lobby →
          let room' :=
            set_players
              (players room
               ++ [mkPlayer (socket_id socket) (socket_sessionId socket) playerName 0])
              room in
          join_room socket roomId playerName now st
          = (mkServer (<[roomId := room']> (rooms st))
               (<[socket_sessionId socket :=
                    mkSession (Some (socket_id socket)) (Some roomId)
                              (Some playerName) now]> (sessions st)),
             [ToRoom roomId "player-joined" (PRoom room')]))).
Proof.
  split.
  - intros Hnone. unfold join_room. by rewrite Hnone.
  - intros room Hroom Hseat%rebind_None_iff. unfold join_room. rewrite Hroom, Hseat.
    split; intros Hst.
    + by rewrite decide_True.
    + rewrite decide_False; [done|]. by intros ?.
Qed.

Lemma join_room_outcomes_witness :
  let st := run scenario_trace initial in
  let Z := mkSocket "Z" "sZ" None in
  join_room Z "123456" "zed" 9 st
  = (st, [ToSocket "error" (PError "Game already started")]).
Proof.
  intros st Z.
  assert (Hroom : rooms st !! "123456" = Some reveal_room) by (by vm_compute).
  assert (Hseat : socket_sessionId Z ∉ player_sessionId <$> players reveal_room)
    by (by compute_done).
  destruct (join_room_outcomes st Z "123456" "zed" 9) as [_ Hjoin].
  destruct (Hjoin reveal_room Hroom Hseat) as [Herr _].
  apply Herr. discriminate.
Defined.

(** The socket the middleware hands over: the presented session and its
    room when the session id is non-empty and known, a fresh session and no
    room otherwise. *)
Lemma handshake_cases socketId auth fresh st :
  (∃ sid session,
     auth = Some sid ∧ sid ≠ "" ∧ sessions st !! sid = Some session
     ∧ handshake socketId auth fresh st
       = mkSocket socketId sid (session_roomId session))
  ∨ (handshake socketId auth fresh st = mkSocket socketId fresh None
     ∧ ∀ sid, auth = Some sid → sid = "" ∨ sessions st !! sid = None).
Proof.
  unfold handshake. destruct auth as [sid|]; [|right; split; [done|]; by intros ? [=]].
  unfold truthy. destruct (String.eqb sid "") eqn:E; simpl.
  - apply String.eqb_eq in E. right. split; [done|]. intros ? [= <-]. by left.
  - apply String.eqb_neq in E.
    destruct (sessions st !! sid) as [session|] eqn:Hs.
    + left. by exists sid, session.
    + right. split; [done|]. intros ? [= <-]. by right.
Qed.

Lemma connection_rooms_unbound socket now st :
  (∀ roomId room,
     socket_roomId socket = Some roomId → rooms st !! roomId = Some room →
     rebind socket room = None) →
  rooms (connection socket now st).1 = rooms st.
Proof.
  intros Hnone. unfold connection.
  destruct (socket_roomId socket) as [roomId|]; [|done].
  destruct (truthy (Some roomId)); [|done].
  destruct (rooms st !! roomId) as [room|] eqn:Hroom; [|done].
  by rewrite (Hnone roomId room).
Qed.

(** X13.  [create-room] stores the new room under the drawn id whatever
    was stored there: a room in progress under the same id is replaced by a
    lobby with the creator alone, every other room is untouched, and a
    former player of the replaced room (any session but the creator's) who
    connects again with its session is not rebound to anything: the rooms
    are unchanged by its connection. *)
Theorem create_room_replaces st socket playerName roomId now :
  let st' := (create_room socket playerName roomId now st).1 in
  rooms st' !! roomId = Some (new_room socket playerName roomId)
  ∧ (∀ k, k ≠ roomId → rooms st' !! k = rooms st !! k)
  ∧ sessions st' !! socket_sessionId socket
    = Some (mkSession (Some (socket_id socket)) (Some roomId) (Some playerName) now)
  ∧ (∀ sid, sid ≠ socket_sessionId socket → sessions st' !! sid = sessions st !! sid)
  ∧ (∀ sid session socketId fresh now',
       sid ≠ socket_sessionId socket →
       sessions st !! sid = Some session →
       session_roomId session = Some roomId →
       rooms (step (Connect socketId (Some sid) fresh now') st').1 = rooms st').
Proof.
  intros st'.
  assert (Hrooms : rooms st' = <[roomId := new_room socket playerName roomId]> (rooms st))
    by done.
  assert (Hsessions :
            sessions st'
            = <[socket_sessionId socket :=
                  mkSession (Some (socket_id socket)) (Some roomId) (Some playerName) now]>
                (sessions st)) by done.
  clearbody st'. split_and!.
  - by rewrite Hrooms, lookup_insert_eq.
  - intros k Hk. by rewrite Hrooms, lookup_insert_ne.
  - by rewrite Hsessions, lookup_insert_eq.
  - intros sid Hsid. by rewrite Hsessions, lookup_insert_ne.
  - intros sid session socketId fresh now' Hsid Hs Hr.
    change (step (Connect socketId (Some sid) fresh now') st')
      with (connection (handshake socketId (Some sid) fresh st') now' st').
    apply connection_rooms_unbound. intros rid room Hsock Hroom.
    destruct (handshake_cases socketId (Some sid) fresh st')
      as [(sid' & s' & [= <-] & _ & Hs' & Hhs)|[Hhs _]];
      rewrite Hhs in *; simpl in Hsock; [|done].
    rewrite Hsessions, lookup_insert_ne in Hs' by done.
    assert (s' = session) as -> by congruence.
    assert (rid = roomId) as -> by congruence.
    rewrite Hrooms, lookup_insert_eq in Hroom. injection Hroom as <-.
    apply rebind_None_iff. simpl. intros ->%list_elem_of_singleton. done.
Qed.


Lemma create_room_replaces_witness :
  let st := run scenario_trace initial in
  let Z := mkSocket "Z" "sZ" None in
  let st' := (create_room Z "zed" "123456" 9 st).1 in
  rooms st' !! "123456" = Some (new_room Z "zed" "123456")
  ∧ rooms (step (Connect "B2" (Some "sB") "sB2" 10) st').1 = rooms st'.
Proof.
  intros st Z st'.
  assert (Hs : sessions st !! "sB"
               = Some (mkSession (Some "B") (Some "123456") (Some "bob") 1))
    by (by vm_compute).
  destruct (create_room_replaces st Z "zed" "123456" 9) as (Hnew & _ & _ & _ & Hold).
  split; [exact Hnew|].
  apply (Hold "sB" (mkSession (Some "B") (Some "123456") (Some "bob") 1) "B2" "sB2" 10);
    [discriminate|exact Hs|reflexivity].
Defined.

(** ** The session registry *)

(** A session is in the registry after the sweep exactly when it was
    there before and is not older than [SESSION_EXPIRY]. *)
Lemma sweep_lookup now st sid session :
  sessions (sweep now st).1 !! sid = Some session
  ↔ sessions st !! sid = Some session
    ∧ now - session_lastSeen session ≤ SESSION_EXPIRY.
Proof.
  unfold sweep. simpl. rewrite map_lookup_filter_Some. simpl.
  split; intros [? ?]; (split; [done|lia]).
Qed.

(** X14.  The sweep touches no room and emits nothing; it removes exactly
    the sessions whose [lastSeen] lies more than [SESSION_EXPIRY] before
    [now] and leaves every other session as it is; a second sweep at the
    same [now] changes nothing. *)
Theorem sweep_evicts_only_stale now st :
  rooms (sweep now st).1 = rooms st
  ∧ (sweep now st).2 = []
  ∧ (∀ sid session,
       sessions (sweep now st).1 !! sid = Some session
       ↔ sessions st !! sid = Some session
         ∧ now - session_lastSeen session ≤ SESSION_EXPIRY)
  ∧ sweep now (sweep now st).1 = sweep now st.
Proof.
  pose proof (sweep_lookup now) as Hlook.
  split_and!; [done|done|apply Hlook|].
  unfold sweep at 1 3. f_equal. unfold set_sessions. f_equal.
  apply map_eq. intros sid. apply option_eq. intros session.
  rewrite map_lookup_filter_Some. rewrite Hlook. simpl. split.
  - intros [[? ?] ?]. by apply map_lookup_filter_Some.
  - intros [? ?]%map_lookup_filter_Some. simpl in *. split_and!; [done|lia|done].
Qed.

(** X15.  A session the sweep has evicted cannot come back to its seat: a
    connection that presents the evicted session id gets the freshly drawn
    session id and no room, the rooms are unchanged by it, and the only
    message is the [session] event with the fresh id. *)
Theorem evicted_session_is_not_rebound st sid session now socketId fresh now' :
  sessions st !! sid = Some session →
  SESSION_EXPIRY < now - session_lastSeen session →
  let st1 := (sweep now st).1 in
  handshake socketId (Some sid) fresh st1 = mkSocket socketId fresh None
  ∧ rooms (step (Connect socketId (Some sid) fresh now') st1).1 = rooms st
  ∧ (step (Connect socketId (Some sid) fresh now') st1).2
    = [ToSocket "session" (PSession fresh)].
Proof.
  intros Hs Hstale st1.
  assert (Hgone : sessions st1 !! sid = None).
  { destruct (sessions st1 !! sid) as [s'|] eqn:E; [|done].
    apply sweep_lookup in E as [E1 E2].
    assert (s' = session) as -> by congruence. lia. }
  assert (Hhs : handshake socketId (Some sid) fresh st1 = mkSocket socketId fresh None).
  { destruct (handshake_cases socketId (Some sid) fresh st1)
      as [(sid' & s' & [= <-] & _ & Hs' & _)|[Hhs _]]; [congruence|done]. }
  split; [done|].
  change (step (Connect socketId (Some sid) fresh now') st1)
    with (connection (handshake socketId (Some sid) fresh st1) now' st1).
  rewrite Hhs. by unfold connection.
Qed.

Lemma evicted_session_is_not_rebound_witness :
  let st := run scenario_trace initial in
  let late := SESSION_EXPIRY + 2 in
  rooms (step (Connect "B2" (Some "sB") "sB2" late) (sweep late st).1).1 = rooms st.
Proof.
  intros st late.
  assert (Hs : sessions st !! "sB"
               = Some (mkSession (Some "B") (Some "123456") (Some "bob") 1))
    by (by vm_compute).
  assert (Hstale : SESSION_EXPIRY
                   < late - session_lastSeen
                              (mkSession (Some "B") (Some "123456") (Some "bob") 1))
    by (unfold late; generalize SESSION_EXPIRY; intros n; simpl; lia).
  destruct (evicted_session_is_not_rebound st "sB" _ late "B2" "sB2" late Hs Hstale)
    as (_ & Hrooms & _).
  exact Hrooms.
Defined.

(** X16.  Every connection leaves the socket's session in the registry
    with [lastSeen = now]: a known session keeps its [socketId], [roomId]
    and [playerName] (the stored [socketId] is not updated), an unknown one
    is recorded with [lastSeen] alone; no other session changes; the first
    message is the [session] event with the socket's session id; and a
    sweep no later than [SESSION_EXPIRY] after [now] keeps the session. *)
Theorem connection_refreshes_session st socketId auth fresh now :
  let socket := handshake socketId auth fresh st in
  let st' := (step (Connect socketId auth fresh now) st).1 in
  let session :=
    match sessions st !! socket_sessionId socket with
    | Some s0 => mkSession (session_socketId s0) (session_roomId s0)
                           (session_playerName s0) now
    | None => mkSession None None None now
    end in
  sessions st' !! socket_sessionId socket = Some session
  ∧ session_lastSeen session = now
  ∧ (∀ sid, sid ≠ socket_sessionId socket → sessions st' !! sid = sessions st !! sid)
  ∧ head (step (Connect socketId auth fresh now) st).2
    = Some (ToSocket "session" (PSession (socket_sessionId socket)))
  ∧ (∀ later, later - now ≤ SESSION_EXPIRY →
       sessions (sweep later st').1 !! socket_sessionId socket = Some session).
Proof.
  intros socket st' session.
  assert (Hs : sessions st'
               = <[socket_sessionId socket := session]> (sessions st)).
  { subst st' session. change (step (Connect socketId auth fresh now) st)
      with (connection socket now st).
    rewrite connection_sessions. by destruct (sessions st !! socket_sessionId socket). }
  assert (Hlook : sessions st' !! socket_sessionId socket = Some session)
    by (by rewrite Hs, lookup_insert_eq).
  assert (Hnow : session_lastSeen session = now)
    by (subst session; by destruct (sessions st !! socket_sessionId socket)).
  split_and!; try done.
  - intros sid Hsid. by rewrite Hs, lookup_insert_ne.
  - change (step (Connect socketId auth fresh now) st) with (connection socket now st).
    unfold connection. destruct (socket_roomId socket) as [roomId|]; [|done].
    destruct (truthy (Some roomId)); [|done].
    destruct (rooms st !! roomId) as [room|]; [|done].
    by destruct (rebind socket room).
  - intros later Hlater.
    apply sweep_lookup. split; [done|]. by rewrite Hnow.
Qed.

Lemma connection_refreshes_session_witness :
  let st := run scenario_trace initial in
  sessions (sweep 20 (step (Connect "B2" (Some "sB") "sB2" 15) st).1).1 !! "sB"
  = Some (mkSession (Some "B") (Some "123456") (Some "bob") 15).
Proof.
  intros st.
  destruct (connection_refreshes_session st "B2" (Some "sB") "sB2" 15)
    as (_ & _ & _ & _ & Hkeep).
  apply (Hkeep 20). unfold SESSION_EXPIRY. lia.
Defined.

(** X17.  Reconnecting to a seat, from the handshake on: when a connection
    presents a non-empty session id the registry knows, the session names
    a room in the map and a player of that room has this session id, then
    in whatever phase the room is that player's [id] becomes the new
    socket's id and nothing else in the room changes; the caller is sent
    its session id and the room, and the room is broadcast. *)
Theorem connection_rebinds_seat st socketId sid fresh now session roomId room i p :
  sid ≠ "" → sessions st !! sid = Some session →
  session_roomId session = Some roomId → roomId ≠ "" →
  rooms st !! roomId = Some room →
  list_find (λ q, player_sessionId q = sid) (players room) = Some (i, p) →
  let room' := set_players (<[i := set_player_id socketId p]> (players room)) room in
  rooms (step (Connect socketId (Some sid) fresh now) st).1
  = <[roomId := room']> (rooms st)
  ∧ (step (Connect socketId (Some sid) fresh now) st).2
    = [ToSocket "session" (PSession sid);
       ToSocket "player-joined" (PRoom room');
       ToRoom roomId "player-joined" (PRoom room')]
  ∧ player_points <$> players room' = player_points <$> players room
  ∧ seats room' = seats room
  ∧ status room' = status room.
Proof.
  intros Hsid Hs Hr Hrid Hroom Hfind room'.
  assert (Hhs : handshake socketId (Some sid) fresh st = mkSocket socketId sid (Some roomId)).
  { destruct (handshake_cases socketId (Some sid) fresh st)
      as [(sid' & s' & [= <-] & _ & Hs' & Hhs)|[_ Hno]].
    - rewrite Hhs. assert (s' = session) as -> by congruence. by rewrite Hr.
    - destruct (Hno sid eq_refl); congruence. }
  assert (Hre : rebind (mkSocket socketId sid (Some roomId)) room = Some room')
    by (by apply rebind_Some).
  change (step (Connect socketId (Some sid) fresh now) st)
    with (connection (handshake socketId (Some sid) fresh st) now st).
  rewrite Hhs.
  destruct (connection_rebinds st (mkSocket socketId sid (Some roomId)) now roomId
              room room' eq_refl Hrid Hroom Hre) as [Hrooms Hout].
  apply list_find_Some in Hfind as (Hi & _ & _).
  split_and!; try done.
  - simpl. by apply (fmap_insert_same player_points _ i p).
  - unfold seats. simpl. by apply (fmap_insert_same seat _ i p).
Qed.

Lemma connection_rebinds_seat_witness :
  let st := run scenario_trace initial in
  rooms (step (Connect "B2" (Some "sB") "sB2" 15) st).1
  = <[ "123456" :=
         set_players (<[1 := mkPlayer "B2" "sB" "bob" 1]> (players reveal_room))
                     reveal_room ]> (rooms st).
Proof.
  intros st.
  assert (Hs : sessions st !! "sB"
               = Some (mkSession (Some "B") (Some "123456") (Some "bob") 1))
    by (by vm_compute).
  assert (Hroom : rooms st !! "123456" = Some reveal_room) by (by vm_compute).
  assert (Hfind : list_find (λ q, player_sessionId q = "sB") (players reveal_room)
                  = Some (1, mkPlayer "B" "sB" "bob" 1)) by reflexivity.
  assert (H1 : "sB" ≠ "") by discriminate.
  assert (H2 : "123456" ≠ "") by discriminate.
  exact (proj1 (connection_rebinds_seat st "B2" "sB" "sB2" 15 _ "123456" reveal_room 1 _
                  H1 Hs eq_refl H2 Hroom Hfind)).
Defined.

(** ** The session-less server keeps the same bounds *)

Section SessionlessBounds.

Import SessionlessServer.

Implicit Types (m : gmap string Room) (room : Room).

(** A handler body that keeps the bounds keeps them in the map. *)
Lemma sessionless_on_room_bounded roomId body m :
  (∀ room, room_bounded room → room_bounded (body room).1) →
  (∀ k room, m !! k = Some room → room_bounded room) →
  ∀ k room, (SessionlessServer.on_room roomId body m).1 !! k = Some room →
            room_bounded room.
Proof.
  intros Hbody Hm k room. unfold SessionlessServer.on_room.
  destruct (m !! roomId) as [room0|] eqn:Hroom0; simpl; [|by apply Hm].
  destruct (decide (roomId = k)) as [->|Hne].
  - rewrite lookup_insert_eq. intros [= <-]. apply Hbody. by eapply Hm.
  - rewrite lookup_insert_ne by done. by apply Hm.
Qed.

Lemma start_game_room_bounded socketId roomId room :
  room_bounded room → room_bounded (start_game_room socketId roomId room).1.
Proof.
  intros (H1 & H2 & H3 & H4 & H5). unfold start_game_room.
  case_decide; [|by unfold room_bounded]. unfold room_bounded. simpl. by split_and!.
Qed.

Lemma next_round_room_bounded roomId room :
  room_bounded room → room_bounded (next_round_room roomId room).1.
Proof.
  intros (H1 & H2 & H3 & H4 & H5). unfold next_round_room.
  case_decide; [|by unfold room_bounded].
  unfold room_bounded. simpl. split_and!; try done; lia.
Qed.

Lemma sessionless_join_bounded socketId roomId playerName room :
  room_bounded room →
  room_bounded (Sessionless.join_room_room socketId roomId playerName room).1.
Proof.
  intros (H1 & H2 & H3 & H4 & H5). unfold Sessionless.join_room_room.
  case_decide as Hst; [by unfold room_bounded|].
  assert (status room = Lobby) as Hl by (by destruct (decide (status room = Lobby))).
  unfold room_bounded. simpl. rewrite length_app, Hl. simpl.
  split_and!; try done; lia.
Qed.

Lemma sessionless_submit_topic_bounded socketId roomId topic' room :
  room_bounded room →
  room_bounded (Sessionless.submit_topic_room socketId roomId topic' room).1.
Proof.
  intros (H1 & H2 & H3 & H4 & H5). unfold Sessionless.submit_topic_room.
  case_decide; [|by unfold room_bounded].
  unfold room_bounded. simpl. split_and!; try done; lia.
Qed.

Lemma sessionless_submit_gif_bounded socketId roomId url room :
  room_bounded room →
  room_bounded (Sessionless.submit_gif_room socketId roomId url room).1.
Proof.
  intros (H1 & H2 & H3 & H4 & H5). unfold Sessionless.submit_gif_room.
  case_decide as Hst; [|by unfold room_bounded]. specialize (H3 Hst). simpl.
  rewrite length_app. simpl.
  case_decide as Hlen; unfold room_bounded; simpl; rewrite ?length_app; simpl.
  - split_and!; try done; lia.
  - rewrite Hst. split_and!; try done; lia.
Qed.

Lemma sessionless_submit_vote_bounded socketId roomId votedId room :
  room_bounded room →
  room_bounded (Sessionless.submit_vote_room socketId roomId votedId room).1.
Proof.
  intros (H1 & H2 & H3 & H4 & H5). unfold Sessionless.submit_vote_room.
  case_decide as Hst; [|by unfold room_bounded]. specialize (H5 Hst).
  case_decide as Hlen.
  - set (room1 := set_votes (votes room ++ [mkVote socketId votedId]) room).
    destruct (close_voting_frame roomId room1) as (_ & _ & _ & _ & _ & Hsub).
    unfold room_bounded.
    rewrite close_voting_players, close_voting_votes, close_voting_status,
      length_award, Hsub.
    simpl in *. rewrite length_app in *. simpl in *.
    split_and!; try done; try lia; by case_decide.
  - unfold room_bounded. simpl in *. rewrite length_app in *. simpl in *.
    rewrite Hst. split_and!; try done; lia.
Qed.

Lemma sessionless_step_bounded a m :
  (∀ k room, m !! k = Some room → room_bounded room) →
  ∀ k room, (SessionlessServer.step a m).1 !! k = Some room → room_bounded room.
Proof.
  intros Hm.
  destruct a as [socketId playerName roomId|socketId roomId playerName
                |socketId roomId|socketId roomId topic'|socketId roomId url
                |socketId roomId votedId|socketId roomId|socketId]; simpl.
  - intros k room. destruct (decide (roomId = k)) as [->|Hne].
    + rewrite lookup_insert_eq. intros [= <-].
      unfold room_bounded. simpl. split_and!; try done; lia.
    + rewrite lookup_insert_ne by done. by apply Hm.
  - intros k room. destruct (m !! roomId) as [room0|] eqn:Hroom0; simpl; [|by apply Hm].
    destruct (decide (roomId = k)) as [->|Hne].
    + rewrite lookup_insert_eq. intros [= <-].
      apply sessionless_join_bounded. by eapply Hm.
    + rewrite lookup_insert_ne by done. by apply Hm.
  - apply sessionless_on_room_bounded; [|done]. apply start_game_room_bounded.
  - apply sessionless_on_room_bounded; [|done]. apply sessionless_submit_topic_bounded.
  - apply sessionless_on_room_bounded; [|done]. apply sessionless_submit_gif_bounded.
  - apply sessionless_on_room_bounded; [|done]. apply sessionless_submit_vote_bounded.
  - apply sessionless_on_room_bounded; [|done]. apply next_round_room_bounded.
  - done.
Qed.

End SessionlessBounds.

(** X18.  The session-less [server/index.js], whose [submit-gif] and
    [submit-vote] always [push], keeps the same bounds: in every room it can
    reach there is a player, [submissions.length] and [votes.length] are at
    most [players.length], and each is smaller while its phase
    ([gif-selection], [voting]) is open. *)
Theorem sessionless_lists_bounded m roomId room :
  SessionlessServer.reachable m → m !! roomId = Some room →
  0 < length (players room)
  ∧ length (submissions room) ≤ length (players room)
  ∧ (status room = GifSelection → length (submissions room) < length (players room))
  ∧ length (votes room) ≤ length (players room)
  ∧ (status room = Voting → length (votes room) < length (players room)).
Proof.
  intros [trace ->]. revert roomId room.
  induction trace as [|a trace IH] using rev_ind; intros roomId room.
  - unfold SessionlessServer.run. simpl. by rewrite lookup_empty.
  - unfold SessionlessServer.run. rewrite foldl_snoc.
    apply (sessionless_step_bounded a); exact IH.
Qed.

Lemma sessionless_lists_bounded_witness :
  let m := SessionlessServer.run
             [SessionlessServer.CreateRoom "A" "alice" "123456";
              SessionlessServer.JoinRoom "B" "123456" "bob";
              SessionlessServer.SubmitTopic "A" "123456" "X";
              SessionlessServer.SubmitGif "A" "123456" "u1";
              SessionlessServer.SubmitGif "A" "123456" "u2"] ∅ in
  ∃ room, m !! "123456" = Some room
          ∧ length (submissions room) ≤ length (players room).
Proof.
  intros m.
  assert (Hreach : SessionlessServer.reachable m) by (by eexists).
  destruct (m !! "123456") as [room|] eqn:Hroom; [|by vm_compute in Hroom].
  exists room. split; [done|].
  by destruct (sessionless_lists_bounded m "123456" room Hreach Hroom) as (_ & Hle & _).
Defined.

(** ** Changing a vote, and the lists at the start of a phase *)

Lemma votes_for_insert k (vs : list Vote) i v v' :
  vs !! i = Some v →
  votes_for k (<[i:=v']> vs) + (if decide (votedPlayerId v = k) then 1 else 0)
  = votes_for k vs + (if decide (votedPlayerId v' = k) then 1 else 0).
Proof.
  intros Hi. pose proof (lookup_lt_Some _ _ _ Hi) as Hlt.
  rewrite insert_take_drop by done.
  rewrite <- (take_drop_middle vs i v Hi) at 3.
  unfold votes_for. rewrite !filter_app, !filter_cons, !length_app.
  repeat case_decide; simpl; lia.
Qed.

(** X19.  A second [submit-vote] of a voter during [voting] replaces the
    voter's stored vote in place: the number of votes is unchanged, so the
    changed vote never closes the round; the old choice loses one vote,
    the new one gains one, and the progress message carries the unchanged
    count. *)
Theorem revote_replaces_the_vote socketId roomId votedId room i v :
  status room = Voting → votedId ≠ socketId →
  list_find (λ v, voterId v = socketId) (votes room) = Some (i, v) →
  length (votes room) < length (players room) →
  let room' := (submit_vote_room socketId roomId votedId room).1 in
  votes room' = <[i := mkVote socketId votedId]> (votes room)
  ∧ length (votes room') = length (votes room)
  ∧ status room' = Voting
  ∧ players room' = players room
  ∧ (∀ k, votes_for k (votes room') + (if decide (votedPlayerId v = k) then 1 else 0)
          = votes_for k (votes room) + (if decide (votedId = k) then 1 else 0))
  ∧ (submit_vote_room socketId roomId votedId room).2
    = [ToRoom roomId "vote-submitted"
         (PCount (length (players room)) (length (votes room)))].
Proof.
  intros Hst Hne Hfind Hlt room'.
  pose proof (proj1 (list_find_Some _ _ _ _) Hfind) as (Hi & Hv & _).
  assert (Hup : upsert_vote socketId votedId (votes room)
                = <[i := mkVote socketId votedId]> (votes room)).
  { unfold upsert_vote. rewrite Hfind. unfold set_votedPlayerId. by rewrite Hv. }
  subst room'. unfold submit_vote_room.
  rewrite decide_True, decide_False by done. simpl. rewrite Hup, length_insert.
  rewrite decide_False by lia. simpl. rewrite length_insert.
  split_and!; try done.
  intros k. by apply (votes_for_insert k (votes room) i v (mkVote socketId votedId)).
Qed.

Lemma revote_replaces_the_vote_witness :
  votes (submit_vote_room "A" "123456" "C" scenario_room).1
  = [mkVote "A" "C"; mkVote "C" "B"].
Proof.
  assert (H1 : status scenario_room = Voting) by reflexivity.
  assert (H2 : "C" ≠ "A") by discriminate.
  assert (H3 : list_find (λ v, voterId v = "A") (votes scenario_room)
               = Some (0, mkVote "A" "B")) by reflexivity.
  assert (H4 : length (votes scenario_room) < length (players scenario_room))
    by (simpl; lia).
  exact (proj1 (revote_replaces_the_vote "A" "123456" "C" scenario_room 0 _ H1 H2 H3 H4)).
Defined.

Lemma room_move_resets room room' :
  room_move room room' →
  (status room ≠ Voting → status room' = Voting → votes room' = [])
  ∧ (status room ≠ GifSelection → status room' = GifSelection → submissions room' = []).
Proof.
  destruct 1 as [socket room room' Hre|socket playerName room Hre Hst
                |socketId roomId room|socketId roomId topic' room
                |socketId roomId url room|socketId roomId votedId room
                |roomId room].
  - destruct (rebind_frame _ _ _ Hre) as (_ & _ & E & _). rewrite E.
    split; intros; congruence.
  - simpl. split; intros; congruence.
  - unfold start_game_room. case_decide; simpl; split; intros; congruence.
  - unfold submit_topic_room. destruct (may_submit_topic _ _); simpl;
      split; intros; (done || congruence).
  - unfold submit_gif_room. case_decide as Hst; [|simpl; split; intros; congruence].
    case_decide; simpl; split; intros; (done || congruence).
  - unfold submit_vote_room. case_decide as Hst; [|simpl; split; intros; congruence].
    case_decide; [simpl; split; intros; congruence|].
    case_decide; [|simpl; split; intros; congruence].
    rewrite close_voting_status. case_decide; split; intros; congruence.
  - unfold next_round_room. case_decide; simpl; split; intros; congruence.
Qed.

(** X20.  The lists are empty at the start of their phase: after any one
    action, a room that has entered [voting] has no votes, and a room that
    has entered [gif-selection] has no submissions. *)
Theorem lists_are_empty_on_entry st a roomId room room' :
  rooms st !! roomId = Some room →
  rooms (step a st).1 !! roomId = Some room' →
  (status room ≠ Voting → status room' = Voting → votes room' = [])
  ∧ (status room ≠ GifSelection → status room' = GifSelection → submissions room' = []).
Proof.
  intros Hroom Hroom'.
  destruct (step_room_moves _ _ _ _ Hroom')
    as [Hsame|[(room0 & Hroom0 & Hmove)|(socket & playerName & ->)]].
  - assert (room' = room) as -> by congruence. split; intros; congruence.
  - assert (room0 = room) as -> by congruence. by apply room_move_resets.
  - split; intros; done.
Qed.

Lemma lists_are_empty_on_entry_witness :
  let room :=
    mkRoom "123456" "A" [mkPlayer "A" "sA" "alice" 0; mkPlayer "B" "sB" "bob" 0]
           GifSelection 1 10 "X" [mkSubmission "A" "u1"] [] (Some "A") in
  votes (submit_gif_room "Z" "123456" "u9" room).1 = [].
Proof.
  intros room.
  assert (Hroom : rooms (run outsider_trace initial) !! "123456" = Some room)
    by (by vm_compute).
  assert (Hroom' : rooms (step (SubmitGif (mkSocket "Z" "sZ" None) "123456" "u9")
                            (run outsider_trace initial)).1 !! "123456"
                   = Some (submit_gif_room "Z" "123456" "u9" room).1)
    by (by vm_compute).
  apply (proj1 (lists_are_empty_on_entry _ _ "123456" room _ Hroom Hroom'));
    [discriminate|reflexivity].
Defined.

(** ** C2: a second submission after a reconnection *)

(** C2 (the code at the failing input).  The claim asks that a repeated
    [submit-gif] of the same caller overwrites the caller's submission.
    After [reload_trace] the player of session [sB] has one submission,
    stored under its former handle [B], and holds the handle [B2].  Its
    second [submit-gif] finds no submission under [B2]
    ([findIndex] returns [-1]) and is pushed: the room holds two submissions
    of that one player, [submissions.length] equals [players.length], and
    the room moves to [voting] although [A] has submitted nothing. *)
Lemma resubmission_after_reconnect_is_appended :
  let st := run reload_trace initial in
  let B2 := handshake "B2" (Some "sB") "sB2"
              (run (take 7 reload_trace) initial) in
  let room' :=
    mkRoom "123456" "A"
      [mkPlayer "A" "sA" "alice" 0; mkPlayer "B2" "sB" "bob" 0]
      Voting 1 10 "X"
      [mkSubmission "B" "u2"; mkSubmission "B2" "u3"]
      []
      (Some "A") in
  B2 = mkSocket "B2" "sB" (Some "123456")
  ∧ rooms st !! "123456" = Some reload_room
  ∧ status reload_room = GifSelection
  ∧ rebind B2 reload_room = Some reload_room
  ∧ list_find (λ s, playerId s = socket_id B2) (submissions reload_room) = None
  ∧ submit_gif B2 "123456" "u3" st
    = (set_rooms (<["123456" := room']> (rooms st)) st,
       [ToRoom "123456" "all-gifs-submitted" (PRoom room')])
  ∧ length (submissions room') = S (length (submissions reload_room))
  ∧ "A" ∉ playerId <$> submissions room'.
Proof.
  vm_compute. split_and!; try reflexivity.
  intros Hin. repeat (apply elem_of_cons in Hin as [Hin|Hin]; [discriminate|]).
  by apply not_elem_of_nil in Hin.
Qed.
